(** * fb-adb transport substrate: net.c and ringbuf.h

    A shallow embedding of the socket helpers of [net.c] (address records,
    syscall wrappers, the out-of-process resolver and its blob protocol) and
    of the ring buffer declared in [ringbuf.h], with the properties the
    specification states about them.

    Conventions.
    - [die(code, msg)] and [die_errno(op)] never return: a computation that
      can die yields an [outcome], [Die code msg] carrying the errno value
      and the formatted message.
    - Memory is modelled as [list byte]; a C string is the run of bytes
      before its first NUL.
    - [size_t] is an unsigned integer type with maximum [SIZE_MAX];
      arithmetic on it is written with its wrap-around.
    - Platform declarations the sources only include (<netdb.h>,
      <sys/wait.h>, the layout of net.h's [struct addr]) are parameters of
      the sections, instantiated for Linux where a concrete run is shown. *)

From Stdlib Require Import ZArith List String Ascii Lia Bool.
From Stdlib.Strings Require Import Byte.
From stdpp Require Import gmap.
Import ListNotations.

Local Open Scope Z_scope.

(** ** Failure *)

Inductive outcome (A : Type) : Type :=
| Ok (a : A)
| Die (code : Z) (msg : string).
Arguments Ok {A} a.
Arguments Die {A} code msg.

#[global] Instance outcome_ret : MRet outcome := fun A a => Ok a.
#[global] Instance outcome_bind : MBind outcome := fun A B k m =>
  match m with
  | Ok a => k a
  | Die c s => Die c s
  end.

(** Values of <errno.h> on Linux and Android, the platforms fb-adb runs on. *)
Definition ENOENT : Z := 2.
Definition EINTR : Z := 4.
Definition EAGAIN : Z := 11.
Definition EWOULDBLOCK : Z := 11.
Definition EINVAL : Z := 22.
Definition ENOSYS : Z := 38.
Definition ECOMM : Z := 70.

(** ** Bytes and native integers *)

Definition Z_of_byte (b : byte) : Z := Z.of_N (Byte.to_N b).

Definition byte_of_Z (z : Z) : byte :=
  match Byte.of_N (Z.to_N (z mod 256)) with
  | Some b => b
  | None => x00
  end.

(** The object representation of an unsigned integer of [n] bytes
    (little-endian, as on every platform fb-adb supports). *)
Fixpoint le_encode (n : nat) (v : Z) : list byte :=
  match n with
  | O => []
  | S n' => byte_of_Z v :: le_encode n' (v / 256)
  end.

Fixpoint le_decode (bs : list byte) : Z :=
  match bs with
  | [] => 0
  | b :: bs' => Z_of_byte b + 256 * le_decode bs'
  end.

(** [strlen]: number of bytes before the first NUL of the memory at [p]. *)
Fixpoint strlen (p : list byte) : nat :=
  match p with
  | [] => O
  | b :: p' => if Byte.eqb b x00 then O else S (strlen p')
  end.

(** [printf("%d")] for an [int]. *)
Definition digit_char (d : Z) : ascii := ascii_of_N (Z.to_N (48 + d)).

Fixpoint show_nat_digits (fuel : nat) (n : Z) (acc : string) : string :=
  match fuel with
  | O => acc
  | S f =>
      let acc' := String (digit_char (n mod 10)) acc in
      if n / 10 =? 0 then acc' else show_nat_digits f (n / 10) acc'
  end.

Definition show_int (n : Z) : string :=
  if n <? 0
  then String "-" (show_nat_digits (S (Z.to_nat (Z.log2 (- n)))) (- n) "")
  else show_nat_digits (S (Z.to_nat (Z.log2 n))) n "".

Lemma Z_of_byte_of_Z z : Z_of_byte (byte_of_Z z) = z mod 256.
Proof.
  unfold Z_of_byte, byte_of_Z.
  assert (Hr : 0 <= z mod 256 < 256) by (apply Z.mod_pos_bound; lia).
  destruct (Byte.of_N (Z.to_N (z mod 256))) as [b|] eqn:E.
  - apply Byte.to_of_N in E. rewrite E. lia.
  - apply Byte.of_N_None_iff in E. lia.
Qed.

Lemma length_le_encode n v : length (le_encode n v) = n.
Proof. revert v. induction n as [|n IH]; intros v; simpl; [done|]. by rewrite IH. Qed.

Lemma le_decode_encode n v :
  le_decode (le_encode n v) = v mod 256 ^ Z.of_nat n.
Proof.
  revert v. induction n as [|n IH]; intros v.
  - simpl. by rewrite Z.mod_1_r.
  - cbn [le_encode le_decode]. rewrite IH, Z_of_byte_of_Z.
    replace (Z.of_nat (S n)) with (1 + Z.of_nat n) by lia.
    rewrite Z.pow_add_r, Z.pow_1_r by lia.
    rewrite Z.rem_mul_r by lia. lia.
Qed.

Lemma le_decode_encode_small n v :
  0 <= v < 256 ^ Z.of_nat n -> le_decode (le_encode n v) = v.
Proof. intros H. rewrite le_decode_encode. by apply Z.mod_small. Qed.

(** * The interruptible resolver: blob protocol of [xgetaddrinfo_interruptible] *)

Module Resolver.

(** [sizeof (size_t)]: the length prefix of a blob is 8 bytes on the wire. *)
Definition sizeof_size_t : nat := 8.
Definition SIZE_MAX : Z := 2 ^ 64 - 1.

(** A lookup result as it sits in memory: the bytes of the [struct addrinfo]
    itself, the memory its [ai_addr] points to, and the memory its
    [ai_canonname] points to ([None] for a null pointer). *)
Record addrinfo : Type := mk_addrinfo {
  ai_raw : list byte;
  ai_addr : list byte;
  ai_canonname : option (list byte)
}.

(** Failure to finish within the given number of loop iterations is kept
    apart from the results of the code. *)
Definition run (A : Type) : Type := option (outcome A).

Section Protocol.

(** [struct addrinfo] is declared by the platform's <netdb.h>: its size and
    the readers of the three fields the protocol looks at are parameters. *)
Variable sizeof_addrinfo : nat.
Variable rd_addrlen : list byte -> Z.
Variable rd_canonname : list byte -> Z.
Variable rd_next : list byte -> Z.

(** [write_blob(fd, data, sz)]: the bytes that reach the descriptor. *)
Definition write_blob (data : list byte) (sz : Z) : list byte :=
  le_encode sizeof_size_t sz ++ take (Z.to_nat sz) data.

(** [xgai_preexec_1]: what the helper writes to its standard output for the
    list [ai], [ai->ai_next], ... *)
Fixpoint xgai_preexec_1 (ai : list addrinfo) : list byte :=
  match ai with
  | [] => []
  | a :: ai_next =>
      write_blob (ai_raw a) (Z.of_nat sizeof_addrinfo)
      ++ write_blob (ai_addr a) (rd_addrlen (ai_raw a))
      ++ match ai_canonname a with
         | Some name => write_blob name (Z.of_nat (strlen name) + 1)
         | None => []
         end
      ++ xgai_preexec_1 ai_next
  end.

(** [decode_blob(&data, &sz, data_end)]. The cursor [data] is represented by
    the bytes from it to [data_end]; the result is the blob, [*sz_out] and
    the advanced cursor. *)
Definition decode_blob (data : list byte) : outcome (list byte * Z * list byte) :=
  if Z.of_nat (length data) <? Z.of_nat sizeof_size_t
  then Die ECOMM "truncated data"
  else
    let sz := le_decode (take sizeof_size_t data) in
    let data := drop sizeof_size_t data in
    if Z.of_nat (length data) <? sz
    then Die ECOMM "truncated data"
    else Ok (take (Z.to_nat sz) data, sz, drop (Z.to_nat sz) data).

(** Body of the [while (data < data_end)] loop: one list node. The stores
    to [ai->ai_addr] and [ai->ai_canonname] land in the header blob, which
    the cursor has already passed; the node keeps the header as received. *)
Definition decode_addrinfo (data : list byte) : outcome (addrinfo * list byte) :=
  '(ai, sz, data) ← decode_blob data;
  if negb (sz =? Z.of_nat sizeof_addrinfo)
  then Die ECOMM "gai protocol error"
  else
    '(addr, sz, data) ← decode_blob data;
    if negb (sz =? rd_addrlen ai)
    then Die ECOMM "gai protocol error"
    else
      if negb (rd_canonname ai =? 0)
      then
        '(name, sz, data) ← decode_blob data;
        Ok (mk_addrinfo ai addr (Some name), data)
      else Ok (mk_addrinfo ai addr None, data).

(** The loop itself; [ai_list] collects the nodes linked so far through
    [*next = ai; next = &ai->ai_next]. *)
Fixpoint decode_loop (fuel : nat) (data : list byte) (ai_list : list addrinfo)
  : run (list addrinfo) :=
  match fuel with
  | O => None
  | S fuel' =>
      if (0 <? length data)%nat
      then
        match decode_addrinfo data with
        | Die c m => Some (Die c m)
        | Ok (ai, data') => decode_loop fuel' data' (ai_list ++ [ai])
        end
      else Some (Ok ai_list)
  end.

(** The decoding part of [xgetaddrinfo_interruptible], run on the bytes
    slurped from the helper. *)
Definition xgai_decode (out : list byte) : run (list addrinfo) :=
  decode_loop (S (length out)) out [].

(** The loop never stores to the [ai_next] of the last node: the chain
    handed back ends where the last header received says it does. *)
Definition ai_list_terminated (l : list addrinfo) : bool :=
  match last l with
  | None => true
  | Some a => rd_next (ai_raw a) =? 0
  end.

(** What [getaddrinfo] leaves in the helper's memory for one node. *)
Definition wf_addrinfo (a : addrinfo) : Prop :=
  length (ai_raw a) = sizeof_addrinfo
  /\ Z.of_nat (length (ai_addr a)) = rd_addrlen (ai_raw a)
  /\ Z.of_nat (length (ai_addr a)) <= SIZE_MAX
  /\ match ai_canonname a with
     | Some name =>
         rd_canonname (ai_raw a) <> 0
         /\ length name = S (strlen name)
         /\ Z.of_nat (length name) <= SIZE_MAX
     | None => rd_canonname (ai_raw a) = 0
     end.

(** Bytes of one node on the wire. *)
Definition node_bytes (a : addrinfo) : list byte := xgai_preexec_1 [a].

(** The offset [k] in the stream of [l] falls between two nodes (or at
    either end). *)
Definition node_boundary (l : list addrinfo) (k : nat) : Prop :=
  exists pre post, l = pre ++ post /\ k = length (xgai_preexec_1 pre).

(** ** Facts about blobs *)

Ltac ltb_false :=
  match goal with
  | |- context [?a <? ?b] =>
      replace (a <? b) with false by (symmetry; apply Z.ltb_ge; lia)
  end.

Lemma length_write_blob (d : list byte) :
  length (write_blob d (Z.of_nat (length d))) = (sizeof_size_t + length d)%nat.
Proof.
  unfold write_blob. rewrite length_app, length_le_encode, Nat2Z.id.
  by rewrite take_ge.
Qed.

Lemma decode_blob_advance data blob sz rest :
  decode_blob data = Ok (blob, sz, rest) ->
  (length rest + sizeof_size_t <= length data)%nat.
Proof.
  unfold decode_blob.
  destruct (Z.of_nat (length data) <? Z.of_nat sizeof_size_t) eqn:E1; [done|].
  destruct (_ <? le_decode _) eqn:E2; [done|].
  intros [= _ _ <-]. rewrite !length_drop. lia.
Qed.

Lemma decode_blob_write_blob (d rest : list byte) :
  Z.of_nat (length d) <= SIZE_MAX ->
  decode_blob (write_blob d (Z.of_nat (length d)) ++ rest)
  = Ok (d, Z.of_nat (length d), rest).
Proof.
  intros Hd. unfold decode_blob, write_blob.
  rewrite Nat2Z.id, (take_ge d) by lia.
  rewrite <- app_assoc.
  rewrite !length_app, length_le_encode. ltb_false.
  rewrite take_app_length', drop_app_length' by (by rewrite length_le_encode).
  rewrite le_decode_encode_small by (unfold SIZE_MAX, sizeof_size_t in *; lia).
  rewrite length_app. ltb_false.
  by rewrite Nat2Z.id, take_app_length, drop_app_length.
Qed.

Lemma decode_blob_truncated (d : list byte) (k : nat) :
  Z.of_nat (length d) <= SIZE_MAX ->
  (k < sizeof_size_t + length d)%nat ->
  decode_blob (take k (write_blob d (Z.of_nat (length d))))
  = Die ECOMM "truncated data".
Proof.
  intros Hd Hk. unfold decode_blob.
  destruct (_ <? Z.of_nat sizeof_size_t) eqn:E1; [done|].
  apply Z.ltb_ge in E1. rewrite length_take, length_write_blob in E1.
  unfold write_blob in *. rewrite Nat2Z.id, (take_ge d) by lia.
  rewrite take_app_ge by (rewrite length_le_encode; lia).
  rewrite length_le_encode.
  rewrite take_app_length', drop_app_length' by (by rewrite length_le_encode).
  rewrite le_decode_encode_small by (unfold SIZE_MAX, sizeof_size_t in *; lia).
  rewrite length_take.
  destruct (_ <? _) eqn:E2; [done|]. apply Z.ltb_ge in E2. lia.
Qed.

(** ** One node *)

Lemma node_bytes_eq (a : addrinfo) :
  node_bytes a =
  write_blob (ai_raw a) (Z.of_nat sizeof_addrinfo)
  ++ write_blob (ai_addr a) (rd_addrlen (ai_raw a))
  ++ match ai_canonname a with
     | Some name => write_blob name (Z.of_nat (strlen name) + 1)
     | None => []
     end.
Proof. unfold node_bytes. cbn [xgai_preexec_1]. by rewrite app_nil_r. Qed.

Lemma xgai_preexec_1_cons (a : addrinfo) (l : list addrinfo) :
  xgai_preexec_1 (a :: l) = node_bytes a ++ xgai_preexec_1 l.
Proof. rewrite node_bytes_eq. cbn [xgai_preexec_1]. by rewrite <- !app_assoc. Qed.

Lemma xgai_preexec_1_app (l1 l2 : list addrinfo) :
  xgai_preexec_1 (l1 ++ l2) = xgai_preexec_1 l1 ++ xgai_preexec_1 l2.
Proof.
  induction l1 as [|a l1 IH]; [done|].
  rewrite <- app_comm_cons, !xgai_preexec_1_cons, IH. by rewrite app_assoc.
Qed.

(** The three blobs of a well-formed node, with the lengths they carry. *)
Lemma node_bytes_wf (a : addrinfo) :
  wf_addrinfo a ->
  Z.of_nat sizeof_addrinfo <= SIZE_MAX ->
  node_bytes a =
  write_blob (ai_raw a) (Z.of_nat (length (ai_raw a)))
  ++ write_blob (ai_addr a) (Z.of_nat (length (ai_addr a)))
  ++ match ai_canonname a with
     | Some name => write_blob name (Z.of_nat (length name))
     | None => []
     end.
Proof.
  intros (Hraw & Hlen & _ & Hname) _. rewrite node_bytes_eq, Hraw, Hlen.
  destruct (ai_canonname a) as [name|]; [|done].
  destruct Hname as (_ & -> & _). do 3 f_equal. lia.
Qed.

Lemma length_node_bytes_pos (a : addrinfo) :
  (sizeof_size_t <= length (node_bytes a))%nat.
Proof.
  rewrite node_bytes_eq. unfold write_blob at 1.
  rewrite !length_app, length_le_encode. lia.
Qed.

Lemma decode_addrinfo_node (a : addrinfo) (rest : list byte) :
  wf_addrinfo a ->
  Z.of_nat sizeof_addrinfo <= SIZE_MAX ->
  decode_addrinfo (node_bytes a ++ rest) = Ok (a, rest).
Proof.
  intros Hwf Hsz. rewrite node_bytes_wf by done.
  destruct Hwf as (Hraw & Hlen & Haddr & Hname).
  unfold decode_addrinfo. rewrite <- !app_assoc.
  rewrite decode_blob_write_blob by lia. cbn [mbind outcome_bind negb].
  rewrite Hraw, Z.eqb_refl. cbn [mbind outcome_bind negb].
  rewrite decode_blob_write_blob by lia. cbn [mbind outcome_bind negb].
  rewrite Hlen, Z.eqb_refl. cbn [mbind outcome_bind negb].
  destruct a as [raw addr [name|]]; cbn [ai_raw ai_addr ai_canonname] in *.
  - destruct Hname as (Hptr & Hstr & Hmax).
    apply Z.eqb_neq in Hptr. rewrite Hptr. cbn [mbind outcome_bind negb].
    by rewrite decode_blob_write_blob.
  - by rewrite Hname.
Qed.

Lemma decode_addrinfo_truncated (a : addrinfo) (k : nat) :
  wf_addrinfo a ->
  Z.of_nat sizeof_addrinfo <= SIZE_MAX ->
  (0 < k < length (node_bytes a))%nat ->
  decode_addrinfo (take k (node_bytes a)) = Die ECOMM "truncated data".
Proof.
  intros Hwf Hsz Hk. rewrite node_bytes_wf in * by done.
  destruct Hwf as (Hraw & Hlen & Haddr & Hname).
  set (B1 := write_blob (ai_raw a) _) in *.
  set (B2 := write_blob (ai_addr a) _) in *.
  set (B3 := match ai_canonname a with Some _ => _ | None => _ end) in *.
  assert (L1 : length B1 = (sizeof_size_t + length (ai_raw a))%nat)
    by apply length_write_blob.
  assert (L2 : length B2 = (sizeof_size_t + length (ai_addr a))%nat)
    by apply length_write_blob.
  rewrite !length_app in Hk. unfold decode_addrinfo.
  destruct (decide (k < length B1)%nat) as [Hk1|Hk1].
  { rewrite take_app_le by lia. unfold B1.
    rewrite decode_blob_truncated by lia. done. }
  rewrite take_app_ge by lia. unfold B1 at 1.
  rewrite decode_blob_write_blob by lia. cbn [mbind outcome_bind negb].
  rewrite Hraw, Z.eqb_refl. cbn [mbind outcome_bind negb].
  destruct (decide (k - length B1 < length B2)%nat) as [Hk2|Hk2].
  { rewrite take_app_le by lia. unfold B2.
    rewrite decode_blob_truncated by lia. done. }
  rewrite take_app_ge by lia. unfold B2 at 1.
  rewrite decode_blob_write_blob by lia. cbn [mbind outcome_bind negb].
  rewrite Hlen, Z.eqb_refl. cbn [mbind outcome_bind negb].
  destruct (ai_canonname a) as [name|]; subst B3.
  - destruct Hname as (Hptr & Hstr & Hmax).
    apply Z.eqb_neq in Hptr. rewrite Hptr. cbn [mbind outcome_bind negb].
    rewrite length_write_blob in Hk.
    rewrite decode_blob_truncated by lia. done.
  - exfalso. cbn [length] in Hk. lia.
Qed.

Lemma decode_addrinfo_advance data a rest :
  decode_addrinfo data = Ok (a, rest) -> (length rest < length data)%nat.
Proof.
  unfold decode_addrinfo.
  destruct (decode_blob data) as [[[b1 s1] d1]|] eqn:E1; [|done]. cbn [mbind outcome_bind negb].
  apply decode_blob_advance in E1.
  destruct (negb (s1 =? _)); [done|].
  destruct (decode_blob d1) as [[[b2 s2] d2]|] eqn:E2; [|done]. cbn [mbind outcome_bind negb].
  apply decode_blob_advance in E2.
  destruct (negb (s2 =? _)); [done|].
  destruct (negb (_ =? 0)).
  - destruct (decode_blob d2) as [[[b3 s3] d3]|] eqn:E3; [|done]. cbn [mbind outcome_bind negb].
    apply decode_blob_advance in E3. intros [= _ <-].
    unfold sizeof_size_t in *. lia.
  - intros [= _ <-]. unfold sizeof_size_t in *. lia.
Qed.

(** ** The loop *)

Lemma decode_loop_fuel (f1 f2 : nat) data acc :
  (length data < f1)%nat -> (length data < f2)%nat ->
  decode_loop f1 data acc = decode_loop f2 data acc.
Proof.
  revert f2 data acc. induction f1 as [|f1 IH]; intros f2 data acc H1 H2; [lia|].
  destruct f2 as [|f2]; [lia|]. cbn [decode_loop].
  destruct (0 <? length data)%nat; [|done].
  destruct (decode_addrinfo data) as [[a rest]|] eqn:E; [|done].
  apply decode_addrinfo_advance in E. apply IH; lia.
Qed.

Lemma decode_loop_total (fuel : nat) data acc :
  (length data < fuel)%nat -> exists o, decode_loop fuel data acc = Some o.
Proof.
  revert data acc. induction fuel as [|fuel IH]; intros data acc H; [lia|].
  cbn [decode_loop]. destruct (0 <? length data)%nat; [|by eauto].
  destruct (decode_addrinfo data) as [[a rest]|] eqn:E; [|by eauto].
  apply decode_addrinfo_advance in E. apply IH. lia.
Qed.

Lemma decode_loop_nodes (l : list addrinfo) (rest : list byte) fuel acc :
  Forall wf_addrinfo l ->
  Z.of_nat sizeof_addrinfo <= SIZE_MAX ->
  (length (xgai_preexec_1 l ++ rest) < fuel)%nat ->
  decode_loop fuel (xgai_preexec_1 l ++ rest) acc
  = decode_loop fuel rest (acc ++ l).
Proof.
  intros Hwf Hsz. revert fuel acc.
  induction Hwf as [|a l Ha Hl IH]; intros fuel acc Hfuel.
  - by rewrite app_nil_r.
  - rewrite xgai_preexec_1_cons, <- app_assoc in *.
    pose proof (length_node_bytes_pos a) as Hpos. unfold sizeof_size_t in Hpos.
    rewrite length_app in Hfuel.
    destruct fuel as [|fuel]; [lia|].
    rewrite (decode_loop_fuel (S fuel) fuel rest)
      by (rewrite ?length_app in *; lia).
    cbn [decode_loop]. rewrite decode_addrinfo_node by done.
    destruct (0 <? _)%nat eqn:E; [|apply Nat.ltb_ge in E; rewrite length_app in E; lia].
    rewrite IH by lia. by rewrite <- app_assoc.
Qed.

Lemma xgai_decode_nodes (l : list addrinfo) :
  Forall wf_addrinfo l ->
  Z.of_nat sizeof_addrinfo <= SIZE_MAX ->
  xgai_decode (xgai_preexec_1 l) = Some (Ok l).
Proof.
  intros Hwf Hsz. unfold xgai_decode.
  rewrite <- (app_nil_r (xgai_preexec_1 l)) at 2.
  rewrite decode_loop_nodes by (rewrite ?app_nil_r; done || lia).
  done.
Qed.

(** A stream cut between two nodes decodes to the nodes before the cut. *)
Lemma xgai_decode_cut_between_nodes (pre post : list addrinfo) :
  Forall wf_addrinfo pre ->
  Z.of_nat sizeof_addrinfo <= SIZE_MAX ->
  xgai_decode (take (length (xgai_preexec_1 pre)) (xgai_preexec_1 (pre ++ post)))
  = Some (Ok pre).
Proof.
  intros Hwf Hsz. rewrite xgai_preexec_1_app, take_app_length.
  by apply xgai_decode_nodes.
Qed.


Lemma decode_addrinfo_canonname data a rest :
  decode_addrinfo data = Ok (a, rest) ->
  is_Some (ai_canonname a) <-> rd_canonname (ai_raw a) <> 0.
Proof.
  unfold decode_addrinfo.
  destruct (decode_blob data) as [[[b1 s1] d1]|]; [|done].
  cbn [mbind outcome_bind]. destruct (negb (s1 =? _)); [done|].
  destruct (decode_blob d1) as [[[b2 s2] d2]|]; [|done].
  cbn [mbind outcome_bind]. destruct (negb (s2 =? _)); [done|].
  destruct (Z.eqb_spec (rd_canonname b1) 0) as [E|E]; cbn [negb].
  - intros [= <- _]. cbn [ai_canonname ai_raw]. split; [by intros [? [=]]|done].
  - destruct (decode_blob d2) as [[[b3 s3] d3]|]; [|done].
    cbn [mbind outcome_bind]. intros [= <- _]. cbn [ai_canonname ai_raw].
    split; [done|by eauto].
Qed.

(** C10. The resolver decode loop terminates on every buffer: a successful
    [decode_blob] leaves the cursor at least [sizeof (size_t)] bytes further,
    so each iteration of [while (data < data_end)] shortens the distance to
    [data_end]; with one unit of fuel per byte (plus one) the loop always
    finishes, by dying or by returning the list, and more fuel changes
    nothing. *)
Theorem decode_loop_terminates (data : list byte) :
  match decode_blob data with
  | Ok (_, _, rest) => (length rest + sizeof_size_t <= length data)%nat
  | Die _ _ => True
  end
  /\ match decode_addrinfo data with
     | Ok (_, rest) => (length rest < length data)%nat
     | Die _ _ => True
     end
  /\ forall (ai_list : list addrinfo) (extra : nat),
       exists o : outcome (list addrinfo),
         decode_loop (S (length data)) data ai_list = Some o
         /\ decode_loop (S (length data) + extra) data ai_list = Some o.
Proof.
  split; [|split].
  - destruct (decode_blob data) as [[[b s] rest]|] eqn:E; [|done].
    by eapply decode_blob_advance.
  - destruct (decode_addrinfo data) as [[a rest]|] eqn:E; [|done].
    by eapply decode_addrinfo_advance.
  - intros acc extra.
    destruct (decode_loop_total (S (length data)) data acc) as [o Ho]; [lia|].
    exists o. split; [done|].
    rewrite <- Ho. apply decode_loop_fuel; lia.
Qed.

(** C3. A well-formed stream of two nodes, one with a canonical name and one
    without (in either order), whose second header ends the helper's chain,
    decodes to exactly these two nodes in the order written; the list
    handed back is terminated, and each node has a canonical name exactly
    when its header's [ai_canonname] field is not null. *)
Theorem decode_two_nodes (a b : addrinfo) :
  wf_addrinfo a -> wf_addrinfo b ->
  Z.of_nat sizeof_addrinfo <= SIZE_MAX ->
  rd_next (ai_raw b) = 0 ->
  (is_Some (ai_canonname a) <-> ai_canonname b = None) ->
  xgai_decode (xgai_preexec_1 [a; b]) = Some (Ok [a; b])
  /\ ai_list_terminated [a; b] = true
  /\ (is_Some (ai_canonname a) <-> rd_canonname (ai_raw a) <> 0)
  /\ (is_Some (ai_canonname b) <-> rd_canonname (ai_raw b) <> 0).
Proof.
  intros Ha Hb Hsz Hnext _. split; [|split].
  - apply xgai_decode_nodes; [|done]. rewrite !Forall_cons. by rewrite Forall_nil.
  - unfold ai_list_terminated. cbn [last]. by apply Z.eqb_eq.
  - split.
    + eapply decode_addrinfo_canonname. by apply decode_addrinfo_node with (rest := []).
    + eapply decode_addrinfo_canonname. by apply decode_addrinfo_node with (rest := []).
Qed.

(** A stream cut strictly inside a node, [k] bytes into the node [a] that
    follows the nodes [pre], is refused. *)
Lemma xgai_decode_cut_inside_node (pre post : list addrinfo) (a : addrinfo) (k : nat) :
  Forall wf_addrinfo pre -> wf_addrinfo a ->
  Z.of_nat sizeof_addrinfo <= SIZE_MAX ->
  (0 < k < length (node_bytes a))%nat ->
  xgai_decode (take (length (xgai_preexec_1 pre) + k)
                    (xgai_preexec_1 (pre ++ a :: post)))
  = Some (Die ECOMM "truncated data").
Proof.
  intros Hpre Ha Hsz Hk.
  rewrite xgai_preexec_1_app, xgai_preexec_1_cons.
  rewrite take_app_ge by lia.
  replace (length (xgai_preexec_1 pre) + k - length (xgai_preexec_1 pre))%nat
    with k by lia.
  rewrite take_app_le by lia.
  unfold xgai_decode. rewrite decode_loop_nodes by (done || lia).
  cbn [decode_loop]. rewrite length_app, length_take.
  destruct (0 <? _)%nat eqn:E.
  - by rewrite decode_addrinfo_truncated.
  - apply Nat.ltb_ge in E. lia.
Qed.

(** Every offset short of the end of a stream is a node boundary or lies
    strictly inside one node. *)
Lemma cut_position (l : list addrinfo) (k : nat) :
  (k < length (xgai_preexec_1 l))%nat ->
  ~ node_boundary l k ->
  exists pre a post j,
    l = pre ++ a :: post
    /\ k = (length (xgai_preexec_1 pre) + j)%nat
    /\ (0 < j < length (node_bytes a))%nat.
Proof.
  revert k. induction l as [|a l IH]; intros k Hk Hnb; [cbn in Hk; lia|].
  rewrite xgai_preexec_1_cons, length_app in Hk.
  destruct (decide (k < length (node_bytes a))%nat) as [Hin|Hout].
  - exists [], a, l, k. cbn [app xgai_preexec_1 length]. repeat split; try done.
    destruct k; [|lia]. exfalso. apply Hnb. by exists [], (a :: l).
  - destruct (IH (k - length (node_bytes a))%nat) as (pre & b & post & j & -> & Hj & Hjb).
    + lia.
    + intros (pre & post & -> & Hpre). apply Hnb.
      exists (a :: pre), post. split; [done|].
      rewrite xgai_preexec_1_cons, length_app. lia.
    + exists (a :: pre), b, post, j. split; [done|].
      rewrite xgai_preexec_1_cons, length_app. split; [lia|done].
Qed.

(** C1, as the code has it. Of a valid stream cut after [k] bytes, short of
    its end: when the cut does not fall between two nodes the decode is
    refused with ECOMM "truncated data"; when it does, it is the end of a
    shorter stream and the decode returns the nodes before the cut. *)
Theorem truncation_detected_inside_nodes (l : list addrinfo) (k : nat) :
  Forall wf_addrinfo l ->
  Z.of_nat sizeof_addrinfo <= SIZE_MAX ->
  (k < length (xgai_preexec_1 l))%nat ->
  (~ node_boundary l k ->
   xgai_decode (take k (xgai_preexec_1 l)) = Some (Die ECOMM "truncated data"))
  /\ (forall pre post,
         l = pre ++ post -> k = length (xgai_preexec_1 pre) ->
         xgai_decode (take k (xgai_preexec_1 l)) = Some (Ok pre)).
Proof.
  intros Hwf Hsz Hk. split.
  - intros Hnb.
    destruct (cut_position l k Hk Hnb) as (pre & a & post & j & -> & -> & Hj).
    apply Forall_app in Hwf as [Hpre Hrest].
    apply Forall_cons in Hrest as [Ha _].
    by apply xgai_decode_cut_inside_node.
  - intros pre post -> ->. apply Forall_app in Hwf as [Hpre _].
    by apply xgai_decode_cut_between_nodes.
Qed.

(** ** More on the wire format *)

(** What every node handed back by the decoder satisfies, whatever the
    bytes were: the header has the size of [struct addrinfo], the address
    has the length the header declares, and there is a name exactly when
    the header's [ai_canonname] is not null. *)
Definition node_ok (n : addrinfo) : Prop :=
  length (ai_raw n) = sizeof_addrinfo
  /\ Z.of_nat (length (ai_addr n)) = rd_addrlen (ai_raw n)
  /\ (is_Some (ai_canonname n) <-> rd_canonname (ai_raw n) <> 0).

(** Bytes a decoded node took from the buffer: its blobs and their length
    prefixes. *)
Definition wire_size (n : addrinfo) : nat :=
  (sizeof_size_t + length (ai_raw n)) + (sizeof_size_t + length (ai_addr n))
  + match ai_canonname n with
    | Some name => sizeof_size_t + length name
    | None => 0
    end.

Lemma le_decode_nonneg (bs : list byte) : 0 <= le_decode bs.
Proof.
  induction bs as [|b bs IH]; cbn [le_decode]; [lia|].
  assert (0 <= Z_of_byte b) by (unfold Z_of_byte; lia). lia.
Qed.

Lemma decode_blob_length data blob sz rest :
  decode_blob data = Ok (blob, sz, rest) ->
  Z.of_nat (length blob) = sz
  /\ length data = (sizeof_size_t + length blob + length rest)%nat.
Proof.
  unfold decode_blob.
  destruct (Z.ltb_spec (Z.of_nat (length data)) (Z.of_nat sizeof_size_t)); [done|].
  pose proof (le_decode_nonneg (take sizeof_size_t data)) as Hpos.
  destruct (Z.ltb_spec (Z.of_nat (length (drop sizeof_size_t data)))
              (le_decode (take sizeof_size_t data))) as [|Hfit]; [done|].
  intros [= <- <- <-]. rewrite length_drop in Hfit.
  rewrite length_take, !length_drop. lia.
Qed.

Lemma decode_addrinfo_node_ok data n rest :
  decode_addrinfo data = Ok (n, rest) ->
  node_ok n /\ length data = (wire_size n + length rest)%nat.
Proof using sizeof_addrinfo rd_addrlen rd_canonname.
  unfold decode_addrinfo.
  destruct (decode_blob data) as [[[b1 s1] d1]|] eqn:E1; [|done].
  cbn [mbind outcome_bind]. apply decode_blob_length in E1 as [L1 T1].
  destruct (Z.eqb_spec s1 (Z.of_nat sizeof_addrinfo)) as [Hs1|]; [|done]. cbn [negb].
  destruct (decode_blob d1) as [[[b2 s2] d2]|] eqn:E2; [|done].
  cbn [mbind outcome_bind]. apply decode_blob_length in E2 as [L2 T2].
  destruct (Z.eqb_spec s2 (rd_addrlen b1)) as [Hs2|]; [|done]. cbn [negb].
  destruct (Z.eqb_spec (rd_canonname b1) 0) as [Hnull|Hname]; cbn [negb].
  - intros [= <- <-]. unfold node_ok, wire_size.
    cbn [ai_raw ai_addr ai_canonname].
    split; [|lia]. split; [lia|]. split; [lia|].
    split; [by intros [? [=]] | done].
  - destruct (decode_blob d2) as [[[b3 s3] d3]|] eqn:E3; [|done].
    cbn [mbind outcome_bind]. apply decode_blob_length in E3 as [L3 T3].
    intros [= <- <-]. unfold node_ok, wire_size.
    cbn [ai_raw ai_addr ai_canonname].
    split; [|lia]. split; [lia|]. split; [lia|]. split; [done | by eauto].
Qed.

Lemma decode_loop_nodes_ok (fuel : nat) data acc l :
  decode_loop fuel data acc = Some (Ok l) ->
  Forall node_ok acc ->
  Forall node_ok l
  /\ (sum_list_with wire_size l = sum_list_with wire_size acc + length data)%nat.
Proof.
  revert data acc. induction fuel as [|fuel IH]; intros data acc; [done|].
  cbn [decode_loop]. destruct (Nat.ltb_spec 0 (length data)) as [Hpos|Hzero].
  - destruct (decode_addrinfo data) as [[n rest]|] eqn:E; [|done].
    apply decode_addrinfo_node_ok in E as [Hn Hlen].
    intros Hloop Hacc. apply IH in Hloop as [Hl Hsum].
    + split; [done|]. rewrite Hsum, sum_list_with_app. cbn [sum_list_with]. lia.
    + apply Forall_app. split; [done|]. by apply Forall_singleton.
  - intros [= <-] Hacc. split; [done|]. lia.
Qed.

(** X1. [decode_blob] inverts [write_blob]: a blob followed by any bytes
    decodes to its payload, its length and the bytes that follow; and any
    strict prefix of a blob is refused as truncated. *)
Theorem blob_round_trip (d rest : list byte) (k : nat) :
  Z.of_nat (length d) <= SIZE_MAX ->
  (k < sizeof_size_t + length d)%nat ->
  decode_blob (write_blob d (Z.of_nat (length d)) ++ rest)
  = Ok (d, Z.of_nat (length d), rest)
  /\ decode_blob (take k (write_blob d (Z.of_nat (length d))))
     = Die ECOMM "truncated data".
Proof.
  intros Hd Hk. split.
  - by apply decode_blob_write_blob.
  - by apply decode_blob_truncated.
Qed.

(** X2. The parent decodes what the helper wrote, for result lists of any
    length: the nodes, their order, their addresses and their names come
    back unchanged; an empty output is the empty list. *)
Theorem decode_inverts_preexec (l : list addrinfo) :
  Forall wf_addrinfo l ->
  Z.of_nat sizeof_addrinfo <= SIZE_MAX ->
  xgai_decode (xgai_preexec_1 l) = Some (Ok l)
  /\ xgai_decode [] = Some (Ok []).
Proof.
  intros Hwf Hsz. split; [by apply xgai_decode_nodes|done].
Qed.

(** X3. After any number of well-formed nodes, a first blob whose length is
    not [sizeof (struct addrinfo)], or an address blob whose length is not
    the header's [ai_addrlen], makes the whole decode die with ECOMM "gai
    protocol error": the nodes already linked are not returned. *)
Theorem length_mismatch_is_protocol_error
    (pre : list addrinfo) (hdr addr rest : list byte) :
  Forall wf_addrinfo pre ->
  Z.of_nat sizeof_addrinfo <= SIZE_MAX ->
  Z.of_nat (length hdr) <= SIZE_MAX ->
  Z.of_nat (length addr) <= SIZE_MAX ->
  (length hdr <> sizeof_addrinfo ->
   xgai_decode (xgai_preexec_1 pre
                ++ write_blob hdr (Z.of_nat (length hdr)) ++ rest)
   = Some (Die ECOMM "gai protocol error"))
  /\ (length hdr = sizeof_addrinfo ->
      Z.of_nat (length addr) <> rd_addrlen hdr ->
      xgai_decode (xgai_preexec_1 pre
                   ++ write_blob hdr (Z.of_nat (length hdr))
                   ++ write_blob addr (Z.of_nat (length addr)) ++ rest)
      = Some (Die ECOMM "gai protocol error")).
Proof.
  intros Hpre Hsz Hhdr Haddr. split.
  - intros Hne. unfold xgai_decode. rewrite decode_loop_nodes by (done || lia).
    cbn [decode_loop]. rewrite length_app, length_write_blob.
    destruct (Nat.ltb_spec 0 (sizeof_size_t + length hdr + length rest));
      [|unfold sizeof_size_t in *; lia].
    unfold decode_addrinfo. rewrite decode_blob_write_blob by done.
    cbn [mbind outcome_bind].
    destruct (Z.eqb_spec (Z.of_nat (length hdr)) (Z.of_nat sizeof_addrinfo)); [lia|done].
  - intros Heq Hne. unfold xgai_decode. rewrite decode_loop_nodes by (done || lia).
    cbn [decode_loop]. rewrite length_app, length_write_blob.
    destruct (Nat.ltb_spec 0 (sizeof_size_t + length hdr
                              + length (write_blob addr (Z.of_nat (length addr)) ++ rest)));
      [|unfold sizeof_size_t in *; lia].
    unfold decode_addrinfo. rewrite decode_blob_write_blob by done.
    cbn [mbind outcome_bind]. rewrite Heq, Z.eqb_refl. cbn [negb].
    rewrite decode_blob_write_blob by done. cbn [mbind outcome_bind].
    destruct (Z.eqb_spec (Z.of_nat (length addr)) (rd_addrlen hdr)); [lia|done].
Qed.

(** X4. Whatever bytes the decoder is given, if it returns a list then every
    node in it has a header of exactly [sizeof (struct addrinfo)] bytes, an
    address of exactly [ai_addrlen] bytes and a name exactly when its
    [ai_canonname] is not null, and the blobs of the nodes with their
    length prefixes account for every byte of the buffer. *)
Theorem decoded_nodes_fit_buffer (data : list byte) (l : list addrinfo) :
  xgai_decode data = Some (Ok l) ->
  Forall node_ok l /\ sum_list_with wire_size l = length data.
Proof.
  intros Hdec. apply decode_loop_nodes_ok in Hdec as [Hok Hsum]; [|done].
  split; [done|]. by rewrite Hsum.
Qed.

(** X5. The third blob is read exactly when the header's [ai_canonname] is
    not null, and its bytes are taken as they are: any payload, empty or
    without a terminating NUL included, becomes the node's name. *)
Theorem canonname_blob_taken_verbatim (hdr addr name rest : list byte) :
  length hdr = sizeof_addrinfo ->
  Z.of_nat (length addr) = rd_addrlen hdr ->
  Z.of_nat sizeof_addrinfo <= SIZE_MAX ->
  Z.of_nat (length addr) <= SIZE_MAX ->
  Z.of_nat (length name) <= SIZE_MAX ->
  decode_addrinfo (write_blob hdr (Z.of_nat (length hdr))
                   ++ write_blob addr (Z.of_nat (length addr))
                   ++ write_blob name (Z.of_nat (length name)) ++ rest)
  = if rd_canonname hdr =? 0
    then Ok (mk_addrinfo hdr addr None,
             write_blob name (Z.of_nat (length name)) ++ rest)
    else Ok (mk_addrinfo hdr addr (Some name), rest).
Proof.
  intros Hhdr Haddr Hsz Ha Hn. unfold decode_addrinfo.
  rewrite decode_blob_write_blob by lia. cbn [mbind outcome_bind].
  rewrite Hhdr, Z.eqb_refl. cbn [negb].
  rewrite decode_blob_write_blob by lia. cbn [mbind outcome_bind].
  rewrite Haddr, Z.eqb_refl. cbn [negb].
  destruct (rd_canonname hdr =? 0); cbn [negb]; [done|].
  by rewrite decode_blob_write_blob.
Qed.

(** ** The helper's exit status *)

(** What the parent observes of the helper: the bytes slurped from its
    standard output, the bytes recorded from its standard error, and the
    status [child_wait] returns. *)
Record child : Type := mk_child {
  child_stdout : list byte;
  child_stderr : list byte;
  child_status : Z
}.

Section ChildStatus.

(** The macros of <sys/wait.h>, and the helpers of child.c, fdrecorder.c
    and util.c the function calls; none of them is among the sources. *)
Variable WIFEXITED : Z -> bool.
Variable WIFSIGNALED : Z -> bool.
Variable WTERMSIG : Z -> Z.
Variable child_status_success_p : Z -> bool.
Variable fdrecorder_get_clean : list byte -> list byte.
Variable massage_output_buf : list byte -> string.

Definition xgetaddrinfo_interruptible (c : child) : run (list addrinfo) :=
  let out := child_stdout c in
  let status := child_status c in
  let success := child_status_success_p status in
  if negb success then
    if WIFEXITED status then
      let err := massage_output_buf (fdrecorder_get_clean (child_stderr c)) in
      Some (Die ENOENT err)
    else if WIFSIGNALED status then
      Some (Die ENOENT ("getaddrinfo failed with signal " ++ show_int (WTERMSIG status)))
    else
      Some (Die ENOENT "unknown status from resolver process")
  else xgai_decode out.

(** C4, as the code has it. When the helper did not succeed the function
    dies with ENOENT: with the cleaned text of the helper's standard error
    if it exited, with "getaddrinfo failed with signal N" (N the
    terminating signal) if it was killed, and with "unknown status from
    resolver process" otherwise. *)
Theorem helper_failure_message (c : child) :
  child_status_success_p (child_status c) = false ->
  xgetaddrinfo_interruptible c
  = Some (Die ENOENT
            (if WIFEXITED (child_status c)
             then massage_output_buf (fdrecorder_get_clean (child_stderr c))
             else if WIFSIGNALED (child_status c)
                  then "getaddrinfo failed with signal "
                       ++ show_int (WTERMSIG (child_status c))
                  else "unknown status from resolver process")%string).
Proof.
  intros Hfail. unfold xgetaddrinfo_interruptible. rewrite Hfail. cbn [negb].
  destruct (WIFEXITED _); [done|]. by destruct (WIFSIGNALED _).
Qed.

(** ** The helper process *)

(** What one call of [getaddrinfo] answers: its return value, [errno]
    (meaningful for EAI_SYSTEM) and the list stored through [res]. *)
Record gai_answer : Type := mk_gai_answer {
  gai_rc : Z;
  gai_errno : Z;
  gai_res : list addrinfo
}.

Section Helper.

(** [EAI_SYSTEM] and [gai_strerror] of <netdb.h>, and the wait status
    [child_wait] reports for a helper that called [_exit(code)]. *)
Variable EAI_SYSTEM : Z.
Variable gai_strerror : Z -> string.
Variable exit_status : Z -> Z.

(** A call of [getaddrinfo] interrupted by a signal. *)
Definition gai_interrupted (a : gai_answer) : Prop :=
  gai_rc a = EAI_SYSTEM /\ gai_errno a = EINTR.

(** [xgetaddrinfo], over the answers the coming calls of [getaddrinfo] get
    ([None]: the resolver never answers). The cleanup it commits frees the
    list when the scope ends; memory is not part of this model. *)
Fixpoint xgetaddrinfo (answers : list gai_answer) : run (list addrinfo) :=
  match answers with
  | [] => None
  | a :: answers' =>
      if (gai_rc a =? EAI_SYSTEM) && (gai_errno a =? EINTR)
      then xgetaddrinfo answers'
      else if gai_rc a =? EAI_SYSTEM
      then Some (Die (gai_errno a) "getaddrinfo")
      else if negb (gai_rc a =? 0)
      then Some (Die ENOENT ("getaddrinfo failed: " ++ gai_strerror (gai_rc a)))
      else Some (Ok (gai_res a))
  end.

(** [xgai_preexec]: the helper runs [xgai_preexec_1] (the lookup, then the
    blobs on standard output) under [catch_error]; on an error it writes the
    message to descriptor 2 and leaves with [_exit(1)], otherwise with
    [_exit(0)]. The result is what the parent observes; the writes to the
    pipes are taken to succeed. *)
Definition xgai_preexec (answers : list gai_answer) : option child :=
  match xgetaddrinfo answers with
  | None => None
  | Some (Ok ai) => Some (mk_child (xgai_preexec_1 ai) [] (exit_status 0))
  | Some (Die _ msg) =>
      let m := list_byte_of_string msg in
      Some (mk_child [] (take (strlen m) m) (exit_status 1))
  end.

Lemma xgetaddrinfo_skips (pre : list gai_answer) (a : gai_answer) (rest : list gai_answer) :
  Forall gai_interrupted pre ->
  xgetaddrinfo (pre ++ a :: rest) = xgetaddrinfo (a :: rest).
Proof.
  intros Hpre. induction Hpre as [|i pre [Hrc He] _ IH]; [done|].
  cbn [app xgetaddrinfo]. by rewrite Hrc, He, !Z.eqb_refl.
Qed.

(** X6. [xgetaddrinfo] calls again as long as [getaddrinfo] answers
    EAI_SYSTEM with EINTR, and acts on the first other answer: EAI_SYSTEM
    dies with the errno and "getaddrinfo", any other non-zero code dies
    with ENOENT and "getaddrinfo failed: " followed by [gai_strerror] of it
    (even when errno happens to be EINTR), and zero returns the list; so it
    never dies with EINTR. *)
Theorem xgetaddrinfo_outcome (pre : list gai_answer) (a : gai_answer) (rest : list gai_answer) :
  Forall gai_interrupted pre -> ~ gai_interrupted a ->
  xgetaddrinfo (pre ++ a :: rest)
  = Some (if gai_rc a =? EAI_SYSTEM then Die (gai_errno a) "getaddrinfo"
          else if gai_rc a =? 0 then Ok (gai_res a)
          else Die ENOENT ("getaddrinfo failed: " ++ gai_strerror (gai_rc a)))
  /\ (forall code msg,
         xgetaddrinfo (pre ++ a :: rest) = Some (Die code msg) -> code <> EINTR).
Proof.
  intros Hpre Ha. rewrite xgetaddrinfo_skips by done. cbn [xgetaddrinfo].
  destruct (Z.eqb_spec (gai_rc a) EAI_SYSTEM) as [Hrc|Hrc],
           (Z.eqb_spec (gai_errno a) EINTR) as [He|He]; cbn [andb negb].
  - by destruct Ha.
  - split; [done|]. by intros code msg [= <- _].
  - split; destruct (gai_rc a =? 0); try done; by intros code msg [= <- _].
  - split; destruct (gai_rc a =? 0); try done; by intros code msg [= <- _].
Qed.

(** X7. Helper and parent together: when the lookup in the helper returns a
    list, [xgetaddrinfo_interruptible] returns that list; when it dies, with
    whatever code, [xgetaddrinfo_interruptible] dies with ENOENT and the
    helper's message as cleaned by the recorder. *)
Theorem resolver_end_to_end (answers : list gai_answer) :
  child_status_success_p (exit_status 0) = true ->
  child_status_success_p (exit_status 1) = false ->
  WIFEXITED (exit_status 1) = true ->
  Z.of_nat sizeof_addrinfo <= SIZE_MAX ->
  (forall ai, xgetaddrinfo answers = Some (Ok ai) ->
     Forall wf_addrinfo ai ->
     exists c, xgai_preexec answers = Some c
               /\ xgetaddrinfo_interruptible c = Some (Ok ai))
  /\ (forall code msg, xgetaddrinfo answers = Some (Die code msg) ->
        exists c, xgai_preexec answers = Some c
                  /\ xgetaddrinfo_interruptible c
                     = Some (Die ENOENT
                               (massage_output_buf
                                  (fdrecorder_get_clean
                                     (take (strlen (list_byte_of_string msg))
                                           (list_byte_of_string msg)))))).
Proof.
  intros Hexit0 Hexit1 Hexited Hsz. split.
  - intros ai Hres Hwf. unfold xgai_preexec. rewrite Hres.
    eexists. split; [reflexivity|]. unfold xgetaddrinfo_interruptible.
    cbn [child_status child_stdout]. rewrite Hexit0. cbn [negb].
    by apply xgai_decode_nodes.
  - intros code msg Hres. unfold xgai_preexec. rewrite Hres.
    eexists. split; [reflexivity|]. unfold xgetaddrinfo_interruptible.
    cbn [child_status child_stderr]. by rewrite Hexit1, Hexited.
Qed.

End Helper.

End ChildStatus.

End Protocol.

(** The layout of glibc on x86-64 and aarch64: 48 bytes, [ai_addrlen] at
    offset 16 (4 bytes), [ai_addr] at 24, [ai_canonname] at 32 and [ai_next]
    at 40 (8 bytes each). *)
Module Glibc64.
Definition sizeof_addrinfo : nat := 48.
Definition field (off len : nat) (raw : list byte) : Z :=
  le_decode (take len (drop off raw)).
Definition rd_addrlen := field 16 4.
Definition rd_canonname := field 32 8.
Definition rd_next := field 40 8.

Definition mk_raw (flags family socktype protocol addrlen addr canon next : Z)
  : list byte :=
  le_encode 4 flags ++ le_encode 4 family ++ le_encode 4 socktype
  ++ le_encode 4 protocol ++ le_encode 4 addrlen ++ le_encode 4 0
  ++ le_encode 8 addr ++ le_encode 8 canon ++ le_encode 8 next.

Definition write_blob := Resolver.write_blob.
Definition xgai_preexec_1 := Resolver.xgai_preexec_1 sizeof_addrinfo rd_addrlen.
Definition xgai_decode := Resolver.xgai_decode sizeof_addrinfo rd_addrlen rd_canonname.
Definition ai_list_terminated := Resolver.ai_list_terminated rd_next.
Definition wf_addrinfo := Resolver.wf_addrinfo sizeof_addrinfo rd_addrlen rd_canonname.

(** Two results for one host: an IPv4 stream socket with the canonical
    name "a.b", then an IPv4 datagram socket without a name. *)
Definition sockaddr_1 : list byte :=
  [x02; x00; x00; x50; x7f; x00; x00; x01; x00; x00; x00; x00; x00; x00; x00; x00].
Definition node_1 : addrinfo :=
  mk_addrinfo (mk_raw 2 2 1 6 16 0x5000 0x5010 0x5020) sockaddr_1
              (Some [x61; x2e; x62; x00]).
Definition node_2 : addrinfo :=
  mk_addrinfo (mk_raw 2 2 2 17 16 0x5050 0 0) sockaddr_1 None.
(** The wait status of Linux: the low seven bits hold the terminating
    signal (0 after an exit, 127 for a stopped child), the next eight the
    exit code. *)
Definition WTERMSIG (status : Z) : Z := Z.land status 127.
Definition WEXITSTATUS (status : Z) : Z := Z.shiftr (Z.land status 65280) 8.
Definition WIFEXITED (status : Z) : bool := WTERMSIG status =? 0.
Definition WIFSIGNALED (status : Z) : bool :=
  (0 <? WTERMSIG status) && (WTERMSIG status <? 127).

(** Modelled from the spec: [child_status_success_p] of child.c, which is
    not among the sources: success is an exit with status 0. *)
Definition child_status_success_p (status : Z) : bool :=
  WIFEXITED status && (WEXITSTATUS status =? 0).

(** Modelled from the spec: [fdrecorder_get_clean] of fdrecorder.c and
    [massage_output_buf] of util.c, which are not among the sources: the
    captured text of the stream, trimmed of trailing noise (here: the
    bytes up to the first NUL, without the line breaks at the end). *)
Definition fdrecorder_get_clean (recorded : list byte) : list byte :=
  take (strlen recorded) recorded.

Fixpoint rstrip (bs : list byte) : list byte :=
  match bs with
  | [] => []
  | b :: bs' =>
      match rstrip bs' with
      | [] => if Byte.eqb b x0a || Byte.eqb b x0d then [] else [b]
      | r => b :: r
      end
  end.

Definition massage_output_buf (buf : list byte) : string :=
  string_of_list_byte (rstrip buf).

Definition xgetaddrinfo_interruptible :=
  Resolver.xgetaddrinfo_interruptible sizeof_addrinfo rd_addrlen rd_canonname
    WIFEXITED WIFSIGNALED WTERMSIG child_status_success_p
    fdrecorder_get_clean massage_output_buf.

(** A helper that wrote "no such host" and exited with status 1, and one
    killed by SIGKILL. *)
Definition child_no_such_host : child :=
  mk_child [] (list_byte_of_string "no such host") 256.
Definition child_killed : child := mk_child [] [] 9.

(** [EAI_SYSTEM], [gai_strerror] for the codes used below, and the wait
    status of a helper that left with [_exit(code)]. *)
Definition EAI_SYSTEM : Z := -11.
Definition EAI_NONAME : Z := -2.
Definition gai_strerror (code : Z) : string :=
  if code =? EAI_NONAME then "Name or service not known" else "Unknown error".
Definition exit_status (code : Z) : Z := Z.shiftl (Z.land code 255) 8.

Definition xgetaddrinfo := Resolver.xgetaddrinfo EAI_SYSTEM gai_strerror.
Definition xgai_preexec :=
  Resolver.xgai_preexec sizeof_addrinfo rd_addrlen EAI_SYSTEM gai_strerror exit_status.

(** The resolver is interrupted once, then answers with the two nodes; or
    is interrupted once, then does not know the name. *)
Definition gai_EINTR : gai_answer := mk_gai_answer EAI_SYSTEM EINTR [].
Definition answers_found : list gai_answer :=
  [gai_EINTR; mk_gai_answer 0 0 [node_1; node_2]].
Definition answers_noname : list gai_answer :=
  [gai_EINTR; mk_gai_answer EAI_NONAME EINTR []].

End Glibc64.

(** ** The protocol on the glibc layout *)

Lemma wf_node_1 : Glibc64.wf_addrinfo Glibc64.node_1.
Proof. repeat split; vm_compute; congruence. Qed.

Lemma wf_node_2 : Glibc64.wf_addrinfo Glibc64.node_2.
Proof. repeat split; vm_compute; congruence. Qed.

Lemma decode_two_nodes_witness :
  Glibc64.xgai_decode (Glibc64.xgai_preexec_1 [Glibc64.node_1; Glibc64.node_2])
  = Some (Ok [Glibc64.node_1; Glibc64.node_2])
  /\ Glibc64.ai_list_terminated [Glibc64.node_1; Glibc64.node_2] = true
  /\ (is_Some (ai_canonname Glibc64.node_1)
      <-> Glibc64.rd_canonname (ai_raw Glibc64.node_1) <> 0)
  /\ (is_Some (ai_canonname Glibc64.node_2)
      <-> Glibc64.rd_canonname (ai_raw Glibc64.node_2) <> 0).
Proof.
  apply (decode_two_nodes Glibc64.sizeof_addrinfo Glibc64.rd_addrlen
           Glibc64.rd_canonname Glibc64.rd_next).
  - apply wf_node_1.
  - apply wf_node_2.
  - vm_compute. congruence.
  - vm_compute. reflexivity.
  - split; [reflexivity | intros _; eexists; reflexivity].
Defined.

Lemma truncation_detected_inside_nodes_witness :
  Glibc64.xgai_decode
    (take 122 (Glibc64.xgai_preexec_1 [Glibc64.node_1; Glibc64.node_2]))
  = Some (Die ECOMM "truncated data")
  /\ Glibc64.xgai_decode
       (take 92 (Glibc64.xgai_preexec_1 [Glibc64.node_1; Glibc64.node_2]))
     = Some (Ok [Glibc64.node_1]).
Proof.
  assert (Hwf : Forall Glibc64.wf_addrinfo [Glibc64.node_1; Glibc64.node_2]).
  { apply Forall_cons. split; [apply wf_node_1|].
    apply Forall_cons. split; [apply wf_node_2 | apply Forall_nil_2]. }
  assert (Hsz : Z.of_nat Glibc64.sizeof_addrinfo <= SIZE_MAX)
    by (vm_compute; discriminate).
  assert (H122 : (122 < length (Glibc64.xgai_preexec_1 [Glibc64.node_1; Glibc64.node_2]))%nat)
    by (vm_compute; lia).
  assert (H92 : (92 < length (Glibc64.xgai_preexec_1 [Glibc64.node_1; Glibc64.node_2]))%nat)
    by (vm_compute; lia).
  split.
  - destruct (truncation_detected_inside_nodes Glibc64.sizeof_addrinfo
                Glibc64.rd_addrlen Glibc64.rd_canonname
                [Glibc64.node_1; Glibc64.node_2] 122 Hwf Hsz H122) as [Hinside _].
    apply Hinside. intros (pre & post & Hl & Hcut).
    destruct pre as [|x [|y [|z pre]]]; cbn [app] in Hl.
    + vm_compute in Hcut. discriminate Hcut.
    + injection Hl as <- _. vm_compute in Hcut. discriminate Hcut.
    + injection Hl as <- <- _. vm_compute in Hcut. discriminate Hcut.
    + discriminate Hl.
  - destruct (truncation_detected_inside_nodes Glibc64.sizeof_addrinfo
                Glibc64.rd_addrlen Glibc64.rd_canonname
                [Glibc64.node_1; Glibc64.node_2] 92 Hwf Hsz H92) as [_ Hbetween].
    apply (Hbetween [Glibc64.node_1] [Glibc64.node_2]).
    + reflexivity.
    + vm_compute. reflexivity.
Defined.

(** C1 as stated fails. The stream of [node_1] (92 bytes, with its
    canonical name) followed by [node_2] (80 bytes) is valid; its final blob
    is the 24-byte address blob of [node_2]. Cut after 92 bytes, before
    that final blob, it decodes without any failure to the one-node list
    [node_1], whose [ai_next] still holds the helper's pointer. *)
Lemma truncation_between_nodes_unnoticed :
  let stream := Glibc64.xgai_preexec_1 [Glibc64.node_1; Glibc64.node_2] in
  let final_blob := Glibc64.write_blob (ai_addr Glibc64.node_2) 16 in
  Glibc64.wf_addrinfo Glibc64.node_1
  /\ Glibc64.wf_addrinfo Glibc64.node_2
  /\ Glibc64.xgai_decode stream = Some (Ok [Glibc64.node_1; Glibc64.node_2])
  /\ drop (length stream - length final_blob) stream = final_blob
  /\ (92 < length stream - length final_blob)%nat
  /\ Glibc64.xgai_decode (take 92 stream) = Some (Ok [Glibc64.node_1])
  /\ Glibc64.ai_list_terminated [Glibc64.node_1] = false.
Proof.
  cbv zeta. split; [apply wf_node_1|]. split; [apply wf_node_2|].
  repeat split; vm_compute; (reflexivity || lia).
Qed.

Lemma helper_failure_message_witness :
  Glibc64.xgetaddrinfo_interruptible Glibc64.child_no_such_host
  = Some (Die ENOENT "no such host").
Proof.
  apply (helper_failure_message Glibc64.sizeof_addrinfo Glibc64.rd_addrlen
           Glibc64.rd_canonname Glibc64.WIFEXITED Glibc64.WIFSIGNALED
           Glibc64.WTERMSIG Glibc64.child_status_success_p
           Glibc64.fdrecorder_get_clean Glibc64.massage_output_buf
           Glibc64.child_no_such_host).
  vm_compute. reflexivity.
Defined.

(** C4 as stated fails on the text of the message: a helper killed by
    signal 9 did not succeed, was signalled, and the failure reads
    "getaddrinfo failed with signal 9", not "resolution failed with
    signal 9". *)
Lemma signal_message_names_getaddrinfo :
  Glibc64.child_status_success_p (child_status Glibc64.child_killed) = false
  /\ Glibc64.WIFSIGNALED (child_status Glibc64.child_killed) = true
  /\ Glibc64.WTERMSIG (child_status Glibc64.child_killed) = 9
  /\ Glibc64.xgetaddrinfo_interruptible Glibc64.child_killed
     = Some (Die ENOENT "getaddrinfo failed with signal 9")
  /\ Glibc64.xgetaddrinfo_interruptible Glibc64.child_killed
     <> Some (Die ENOENT "resolution failed with signal 9").
Proof. repeat split; vm_compute; congruence. Qed.

(** ** Further runs on the glibc layout *)

Lemma blob_round_trip_witness :
  decode_blob (write_blob Glibc64.sockaddr_1 16 ++ [x2a])
  = Ok (Glibc64.sockaddr_1, 16, [x2a])
  /\ decode_blob (take 23 (write_blob Glibc64.sockaddr_1 16))
     = Die ECOMM "truncated data".
Proof.
  apply (blob_round_trip Glibc64.sockaddr_1 [x2a] 23).
  - vm_compute. discriminate.
  - vm_compute. lia.
Defined.

Lemma decode_inverts_preexec_witness :
  Glibc64.xgai_decode
    (Glibc64.xgai_preexec_1 [Glibc64.node_2; Glibc64.node_1; Glibc64.node_2])
  = Some (Ok [Glibc64.node_2; Glibc64.node_1; Glibc64.node_2])
  /\ Glibc64.xgai_decode [] = Some (Ok []).
Proof.
  apply (decode_inverts_preexec Glibc64.sizeof_addrinfo Glibc64.rd_addrlen
           Glibc64.rd_canonname).
  - apply Forall_cons. split; [apply wf_node_2|].
    apply Forall_cons. split; [apply wf_node_1|].
    apply Forall_cons. split; [apply wf_node_2 | apply Forall_nil_2].
  - vm_compute. discriminate.
Defined.

Lemma length_mismatch_is_protocol_error_witness :
  Glibc64.xgai_decode
    (Glibc64.xgai_preexec_1 [Glibc64.node_1] ++ write_blob [x01; x02] 2 ++ [])
  = Some (Die ECOMM "gai protocol error")
  /\ Glibc64.xgai_decode
       (Glibc64.xgai_preexec_1 [Glibc64.node_1]
        ++ write_blob (ai_raw Glibc64.node_2) 48
        ++ write_blob [x01; x02; x03] 3 ++ [])
     = Some (Die ECOMM "gai protocol error").
Proof.
  assert (Hpre : Forall Glibc64.wf_addrinfo [Glibc64.node_1]).
  { apply Forall_cons. split; [apply wf_node_1 | apply Forall_nil_2]. }
  assert (Hsz : Z.of_nat Glibc64.sizeof_addrinfo <= SIZE_MAX)
    by (vm_compute; discriminate).
  split.
  - destruct (length_mismatch_is_protocol_error Glibc64.sizeof_addrinfo
                Glibc64.rd_addrlen Glibc64.rd_canonname
                [Glibc64.node_1] [x01; x02] [] [] Hpre Hsz
                ltac:(vm_compute; discriminate) ltac:(vm_compute; discriminate))
      as [Hhdr _].
    apply Hhdr. vm_compute. discriminate.
  - destruct (length_mismatch_is_protocol_error Glibc64.sizeof_addrinfo
                Glibc64.rd_addrlen Glibc64.rd_canonname
                [Glibc64.node_1] (ai_raw Glibc64.node_2) [x01; x02; x03] [] Hpre Hsz
                ltac:(vm_compute; discriminate) ltac:(vm_compute; discriminate))
      as [_ Haddr].
    apply Haddr; vm_compute; [reflexivity | discriminate].
Defined.

Lemma decoded_nodes_fit_buffer_witness :
  Forall (node_ok Glibc64.sizeof_addrinfo Glibc64.rd_addrlen Glibc64.rd_canonname)
         [Glibc64.node_1; Glibc64.node_2]
  /\ sum_list_with wire_size [Glibc64.node_1; Glibc64.node_2]
     = length (Glibc64.xgai_preexec_1 [Glibc64.node_1; Glibc64.node_2]).
Proof.
  apply (decoded_nodes_fit_buffer Glibc64.sizeof_addrinfo Glibc64.rd_addrlen
           Glibc64.rd_canonname
           (Glibc64.xgai_preexec_1 [Glibc64.node_1; Glibc64.node_2])
           [Glibc64.node_1; Glibc64.node_2]).
  vm_compute. reflexivity.
Defined.

Lemma canonname_blob_taken_verbatim_witness :
  decode_addrinfo Glibc64.sizeof_addrinfo Glibc64.rd_addrlen Glibc64.rd_canonname
    (write_blob (ai_raw Glibc64.node_1) 48
     ++ write_blob Glibc64.sockaddr_1 16 ++ write_blob [] 0 ++ [])
  = Ok (mk_addrinfo (ai_raw Glibc64.node_1) Glibc64.sockaddr_1 (Some []), []).
Proof.
  apply (canonname_blob_taken_verbatim Glibc64.sizeof_addrinfo Glibc64.rd_addrlen
           Glibc64.rd_canonname (ai_raw Glibc64.node_1) Glibc64.sockaddr_1 [] []).
  - vm_compute. reflexivity.
  - vm_compute. reflexivity.
  - vm_compute. discriminate.
  - vm_compute. discriminate.
  - vm_compute. discriminate.
Defined.

Lemma xgetaddrinfo_outcome_witness :
  Glibc64.xgetaddrinfo Glibc64.answers_noname
  = Some (Die ENOENT "getaddrinfo failed: Name or service not known").
Proof.
  apply (xgetaddrinfo_outcome Glibc64.EAI_SYSTEM Glibc64.gai_strerror
           [Glibc64.gai_EINTR] (mk_gai_answer Glibc64.EAI_NONAME EINTR []) []).
  - apply Forall_cons. split; [by split | apply Forall_nil_2].
  - intros [Hrc _]. discriminate Hrc.
Defined.

Lemma resolver_end_to_end_witness :
  (exists c, Glibc64.xgai_preexec Glibc64.answers_found = Some c
             /\ Glibc64.xgetaddrinfo_interruptible c
                = Some (Ok [Glibc64.node_1; Glibc64.node_2]))
  /\ (exists c, Glibc64.xgai_preexec Glibc64.answers_noname = Some c
                /\ Glibc64.xgetaddrinfo_interruptible c
                   = Some (Die ENOENT "getaddrinfo failed: Name or service not known")).
Proof.
  split.
  - destruct (resolver_end_to_end Glibc64.sizeof_addrinfo Glibc64.rd_addrlen
                Glibc64.rd_canonname Glibc64.WIFEXITED Glibc64.WIFSIGNALED
                Glibc64.WTERMSIG Glibc64.child_status_success_p
                Glibc64.fdrecorder_get_clean Glibc64.massage_output_buf
                Glibc64.EAI_SYSTEM Glibc64.gai_strerror Glibc64.exit_status
                Glibc64.answers_found eq_refl eq_refl eq_refl
                ltac:(vm_compute; discriminate)) as [Hfound _].
    apply (Hfound [Glibc64.node_1; Glibc64.node_2] eq_refl).
    apply Forall_cons. split; [apply wf_node_1|].
    apply Forall_cons. split; [apply wf_node_2 | apply Forall_nil_2].
  - destruct (resolver_end_to_end Glibc64.sizeof_addrinfo Glibc64.rd_addrlen
                Glibc64.rd_canonname Glibc64.WIFEXITED Glibc64.WIFSIGNALED
                Glibc64.WTERMSIG Glibc64.child_status_success_p
                Glibc64.fdrecorder_get_clean Glibc64.massage_output_buf
                Glibc64.EAI_SYSTEM Glibc64.gai_strerror Glibc64.exit_status
                Glibc64.answers_noname eq_refl eq_refl eq_refl
                ltac:(vm_compute; discriminate)) as [_ Hfailed].
    destruct (Hfailed ENOENT "getaddrinfo failed: Name or service not known"%string eq_refl)
      as (c & Hc & Hr).
    exists c. split; [exact Hc|]. unfold Glibc64.xgetaddrinfo_interruptible.
    rewrite Hr. vm_compute. reflexivity.
Defined.

End Resolver.

(** * Address records: [struct addr], its constructors and [describe_addr] *)

Module Addr.

(** Address families and the layout of the socket addresses, as on Linux:
    [sa_family_t] is two bytes at offset 0, [sun_path] starts at offset 2,
    [sin_port] and [sin6_port] are at offset 2, [sin_addr] at 4 and
    [sin6_addr] at 8. [socklen_t], the type in which [size] reaches
    [connect] and [bind], is an unsigned 32-bit integer. *)
Definition AF_UNIX : Z := 1.
Definition AF_INET : Z := 2.
Definition AF_INET6 : Z := 10.
Definition INT_MAX : Z := 2 ^ 31 - 1.
Definition offsetof_sun_path : Z := 2.
Definition to_socklen_t (n : Z) : Z := n mod 2 ^ 32.

(** [struct addr]: the [size] member and the bytes of the address union,
    from [offsetof(struct addr, addr)] to the end of the allocation. *)
Record addr : Type := mk_addr {
  size : Z;
  sa : list byte
}.

Definition sa_family (a : addr) : Z := le_decode (take 2 (sa a)).
Definition sun_path (a : addr) : list byte := drop 2 (sa a).
Definition sin_port (a : addr) : list byte := take 2 (drop 2 (sa a)).
Definition sin_addr (a : addr) : list byte := take 4 (drop 4 (sa a)).
Definition sin6_port (a : addr) : list byte := take 2 (drop 2 (sa a)).
Definition sin6_addr (a : addr) : list byte := take 16 (drop 8 (sa a)).

(** [ntohs] of the two bytes of a port in network order. *)
Definition ntohs (port : list byte) : Z :=
  match port with
  | [hi; lo] => 256 * Z_of_byte hi + Z_of_byte lo
  | _ => 0
  end.

(** [SUN_LEN(ptr)]. *)
Definition SUN_LEN (a : addr) : Z :=
  offsetof_sun_path + Z.of_nat (strlen (sun_path a)).

(** [printf("%.*s", prec, p)]: at most [prec] bytes of the string at [p]. *)
Definition printf_prec_s (prec : Z) (p : list byte) : string :=
  string_of_list_byte (take (Z.to_nat prec) (take (strlen p) p)).

(** Modelled from the spec: [die_errno] of util.c, which is not among the
    sources: a fatal condition annotated with the OS error code and naming
    the failing operation. *)
Definition die_errno {A} (errno : Z) (op : string) : outcome A := Die errno op.

(** A constructor's result together with the sizes it asked [xalloc] for,
    in order. *)
Definition allocating (A : Type) : Type := (list Z * outcome A)%type.

Section Records.

(** [SIZE_MAX] of the platform and [offsetof(struct addr, addr)] of net.h. *)
Variable SIZE_MAX : Z.
Variable offsetof_addr : Z.
(** [inet_ntop] of the C library: the text, or the errno it failed with. *)
Variable inet_ntop : Z -> list byte -> Z + string.

Definition to_size_t (n : Z) : Z := n mod (SIZE_MAX + 1).

(** Modelled from the spec: the [SATADD] macro of util.h, which is not among
    the sources: a saturating addition on [size_t] that reports arithmetic
    overflow of the length computation; the result is the flag and the
    value stored through the first argument. *)
Definition SATADD (a b : Z) : bool * Z :=
  if SIZE_MAX - a <? b then (true, SIZE_MAX) else (false, a + b).

Definition describe_addr (a : addr) : outcome string :=
  let family := sa_family a in
  if family =? AF_INET then
    match inet_ntop family (sin_addr a) with
    | inl errno => die_errno errno "inet_ntop"
    | inr buf =>
        Ok ("[" ++ buf ++ ":" ++ show_int (ntohs (sin_port a)) ++ "]")%string
    end
  else if family =? AF_INET6 then
    match inet_ntop family (sin6_addr a) with
    | inl errno => die_errno errno "inet_ntop"
    | inr buf =>
        Ok ("[" ++ buf ++ ":" ++ show_int (ntohs (sin6_port a)) ++ "]")%string
    end
  else if family =? AF_UNIX then
    let path := sun_path a in
    let path_offset := to_size_t (offsetof_addr + offsetof_sun_path) in
    if size a <? path_offset
    then Die EINVAL "illegal AF_UNIX addr"
    else
      let pathlen := size a - path_offset in
      let pathlen := if INT_MAX <? pathlen then INT_MAX else pathlen in
      let '(kind, path) :=
        match path with
        | b :: path' =>
            if Byte.eqb b x00 then ("abstract", path') else ("filesystem", path)
        | [] => ("abstract", [])
        end%string in
      Ok ("[unix" ++ kind ++ ":[" ++ printf_prec_s pathlen path ++ "]]")%string
  else
    Ok ("[unknown address family " ++ show_int family ++ "]")%string.

Definition make_addr_unix_filesystem (filename : list byte) : allocating addr :=
  let filename_length := Z.of_nat (strlen filename) in
  let addrlen := to_size_t (offsetof_addr + offsetof_sun_path) in
  let '(overflow, addrlen) := SATADD addrlen (to_size_t (filename_length + 1)) in
  if overflow
  then ([], Die EINVAL "socket name too long")
  else
    let a := mk_addr 0 (le_encode 2 AF_UNIX ++ take (strlen filename) filename ++ [x00]) in
    ([addrlen], Ok (mk_addr (to_socklen_t (SUN_LEN a)) (sa a))).

(** [linux] stands for [#ifdef __linux__]. *)
Definition make_addr_unix_abstract (linux : bool) (bytes : list byte) (nr : Z)
  : allocating addr :=
  if linux then
    let addrlen := to_size_t (offsetof_addr + offsetof_sun_path + 1) in
    let '(overflow, addrlen) := SATADD addrlen nr in
    if overflow
    then ([], Die EINVAL "socket name too long")
    else
      ([addrlen],
       Ok (mk_addr (to_socklen_t (addrlen - offsetof_addr))
                   (le_encode 2 AF_UNIX ++ [x00] ++ take (Z.to_nat nr) bytes)))
  else ([], Die ENOSYS "this system does not support abstract AF_UNIX").

Definition make_addr_unix_abstract_s (linux : bool) (name : list byte) : allocating addr :=
  make_addr_unix_abstract linux name (Z.of_nat (strlen name)).

(** [addrinfo2addr(ai)], from [ai->ai_addrlen] and the memory at [ai->ai_addr]. *)
Definition addrinfo2addr (ai_addrlen : Z) (ai_addr : list byte) : allocating addr :=
  let allocsz := to_size_t offsetof_addr in
  let '(overflow, allocsz) := SATADD allocsz (to_size_t ai_addrlen) in
  if overflow
  then ([], Die EINVAL "address too long")
  else ([allocsz], Ok (mk_addr ai_addrlen (take (Z.to_nat ai_addrlen) ai_addr))).

(** [describe_addr] of what a constructor returned. *)
Definition describe_made (r : allocating addr) : outcome string :=
  a ← r.2; describe_addr a.

(** ** Overflow discipline of the constructors *)

Lemma to_size_t_small (n : Z) : 0 <= n <= SIZE_MAX -> to_size_t n = n.
Proof. intros H. unfold to_size_t. apply Z.mod_small. lia. Qed.

Lemma SATADD_overflow (a b : Z) : SIZE_MAX < a + b -> SATADD a b = (true, SIZE_MAX).
Proof.
  intros H. unfold SATADD.
  destruct (Z.ltb_spec (SIZE_MAX - a) b); [done|lia].
Qed.

Lemma SATADD_fits (a b : Z) : a + b <= SIZE_MAX -> SATADD a b = (false, a + b).
Proof.
  intros H. unfold SATADD.
  destruct (Z.ltb_spec (SIZE_MAX - a) b); [lia|done].
Qed.

(** C7. When the length computation of a constructor overflows [size_t], the
    constructor dies with EINVAL ("socket name too long", "address too
    long") before it allocates anything, for [make_addr_unix_filesystem]
    (on a string that, with its terminator, fits the address space),
    [make_addr_unix_abstract] and [addrinfo2addr]; and where the platform
    is not Linux [make_addr_unix_abstract] dies with ENOSYS. *)
Theorem constructors_refuse_overflow :
  0 <= offsetof_addr ->
  offsetof_addr + offsetof_sun_path + 1 <= SIZE_MAX ->
  (forall filename : list byte,
      Z.of_nat (strlen filename) < SIZE_MAX ->
      SIZE_MAX < offsetof_addr + offsetof_sun_path + (Z.of_nat (strlen filename) + 1) ->
      make_addr_unix_filesystem filename = ([], Die EINVAL "socket name too long"))
  /\ (forall (bytes : list byte) (nr : Z),
         0 <= nr <= SIZE_MAX ->
         SIZE_MAX < offsetof_addr + offsetof_sun_path + 1 + nr ->
         make_addr_unix_abstract true bytes nr = ([], Die EINVAL "socket name too long"))
  /\ (forall (bytes : list byte) (nr : Z),
         make_addr_unix_abstract false bytes nr
         = ([], Die ENOSYS "this system does not support abstract AF_UNIX"))
  /\ (forall (ai_addrlen : Z) (ai_addr : list byte),
         0 <= ai_addrlen <= SIZE_MAX ->
         SIZE_MAX < offsetof_addr + ai_addrlen ->
         addrinfo2addr ai_addrlen ai_addr = ([], Die EINVAL "address too long")).
Proof.
  intros Hoff Hlay. unfold offsetof_sun_path in *. repeat split.
  - intros filename Hlen Hovf. unfold make_addr_unix_filesystem, offsetof_sun_path.
    rewrite !to_size_t_small by lia. by rewrite SATADD_overflow by lia.
  - intros bytes nr Hnr Hovf. unfold make_addr_unix_abstract, offsetof_sun_path.
    rewrite !to_size_t_small by lia. by rewrite SATADD_overflow by lia.
  - intros ai_addrlen ai_addr Hlen Hovf. unfold addrinfo2addr.
    rewrite !to_size_t_small by lia. by rewrite SATADD_overflow by lia.
Qed.

(** When nothing overflows the constructors allocate exactly the bytes of
    the header, the family and the whole name. *)
Lemma make_addr_unix_filesystem_fits (filename : list byte) :
  0 <= offsetof_addr ->
  offsetof_addr + offsetof_sun_path + (Z.of_nat (strlen filename) + 1) <= SIZE_MAX ->
  exists a,
    make_addr_unix_filesystem filename
    = ([offsetof_addr + offsetof_sun_path + (Z.of_nat (strlen filename) + 1)], Ok a)
    /\ sun_path a = take (strlen filename) filename ++ [x00].
Proof.
  intros Hoff Hfit. unfold make_addr_unix_filesystem, offsetof_sun_path in *.
  rewrite !to_size_t_small by lia. rewrite SATADD_fits by lia.
  eexists. split; [reflexivity|]. reflexivity.
Qed.

(** ** What [describe_addr] prints for a constructed UNIX address *)

Lemma strlen_app_nul (p : list byte) :
  strlen p = length p -> strlen (p ++ [x00]) = length p.
Proof.
  induction p as [|b p IH]; simpl; [done|].
  destruct (Byte.eqb b x00); [done|]. intros [= H]. by rewrite IH.
Qed.

(** For a path without NUL bytes [describe_addr] measures the path from
    [offsetof(struct addr, addr_un.sun_path)] although [size] counts from
    the start of the socket address: the rendering lacks the last
    [offsetof(struct addr, addr)] bytes of the path, and dies when the path
    is shorter than that. *)
Lemma describe_make_addr_unix_filesystem (p : list byte) :
  0 <= offsetof_addr ->
  offsetof_addr + offsetof_sun_path + (Z.of_nat (length p) + 1) <= SIZE_MAX ->
  strlen p = length p -> p <> [] ->
  Z.of_nat (length p) <= INT_MAX ->
  describe_made (make_addr_unix_filesystem p)
  = if Z.of_nat (length p) <? offsetof_addr
    then Die EINVAL "illegal AF_UNIX addr"
    else Ok ("[unixfilesystem:["
             ++ string_of_list_byte
                  (take (Z.to_nat (Z.of_nat (length p) - offsetof_addr)) p)
             ++ "]]")%string.
Proof.
  intros Hoff Hfit Hnul Hne Hmax.
  unfold describe_made, make_addr_unix_filesystem, offsetof_sun_path in *.
  rewrite Hnul. rewrite !to_size_t_small by lia. rewrite SATADD_fits by lia.
  cbn [snd mbind outcome_bind]. rewrite take_ge by lia.
  unfold describe_addr, sa_family, SUN_LEN, sun_path.
  cbn [sa size]. change (le_encode 2 AF_UNIX) with [x01; x00].
  cbn [app firstn skipn]. rewrite ?take_0, ?drop_0. change (le_decode [x01; x00]) with 1.
  change (1 =? AF_INET) with false. change (1 =? AF_INET6) with false.
  change (1 =? AF_UNIX) with true. cbv iota.
  rewrite strlen_app_nul by done. unfold offsetof_sun_path, to_socklen_t, INT_MAX in *.
  rewrite Z.mod_small by lia. rewrite to_size_t_small by lia.
  replace (2 + Z.of_nat (length p) <? offsetof_addr + 2)
    with (Z.of_nat (length p) <? offsetof_addr)
    by (destruct (Z.ltb_spec (Z.of_nat (length p)) offsetof_addr),
          (Z.ltb_spec (2 + Z.of_nat (length p)) (offsetof_addr + 2)); lia || done).
  destruct (Z.ltb_spec (Z.of_nat (length p)) offsetof_addr); [done|].
  replace (2 + Z.of_nat (length p) - (offsetof_addr + 2))
    with (Z.of_nat (length p) - offsetof_addr) by lia.
  destruct (Z.ltb_spec (2 ^ 31 - 1) (Z.of_nat (length p) - offsetof_addr)); [lia|].
  destruct p as [|b p']; [done|]. cbn [app].
  cbn [strlen] in Hnul. destruct (Byte.eqb b x00) eqn:Eb; [done|].
  unfold printf_prec_s. rewrite app_comm_cons, strlen_app_nul by (cbn [strlen]; by rewrite Eb).
  rewrite take_app_length. done.
Qed.

(** ** The records the constructors build *)

Lemma strlen_bound (p : list byte) : (strlen p <= length p)%nat.
Proof.
  induction p as [|b p IH]; cbn [strlen length]; [lia|].
  destruct (Byte.eqb b x00); lia.
Qed.

Lemma strlen_take (p : list byte) : strlen (take (strlen p) p) = strlen p.
Proof.
  induction p as [|b p IH]; cbn [strlen]; [done|].
  destruct (Byte.eqb b x00) eqn:Eb; [done|].
  cbn [take strlen]. by rewrite Eb, IH.
Qed.

Lemma strlen_take_nul (p : list byte) :
  strlen (take (strlen p) p ++ [x00]) = strlen p.
Proof.
  pose proof (strlen_bound p) as Hb.
  rewrite strlen_app_nul; rewrite ?length_take, ?strlen_take; lia.
Qed.

(** X8. When nothing overflows, [make_addr_unix_filesystem] asks [xalloc]
    once, for the header, the family, the path and its terminator; the
    record is of family AF_UNIX, its [sun_path] holds the path with its
    NUL, and [size] is [SUN_LEN]: it counts the family and the path but not
    the terminator. *)
Theorem make_addr_unix_filesystem_record (filename : list byte) :
  0 <= offsetof_addr ->
  offsetof_addr + offsetof_sun_path + (Z.of_nat (strlen filename) + 1) <= SIZE_MAX ->
  exists a,
    make_addr_unix_filesystem filename
    = ([offsetof_addr + offsetof_sun_path + (Z.of_nat (strlen filename) + 1)], Ok a)
    /\ sa_family a = AF_UNIX
    /\ sun_path a = take (strlen filename) filename ++ [x00]
    /\ size a = to_socklen_t (offsetof_sun_path + Z.of_nat (strlen filename))
    /\ offsetof_addr + Z.of_nat (length (sa a))
       = offsetof_addr + offsetof_sun_path + (Z.of_nat (strlen filename) + 1).
Proof using SIZE_MAX offsetof_addr.
  intros Hoff Hfit. pose proof (strlen_bound filename) as Hb.
  unfold make_addr_unix_filesystem. unfold offsetof_sun_path in Hfit |- *.
  rewrite !to_size_t_small by lia. rewrite SATADD_fits by lia.
  eexists. split; [reflexivity|].
  unfold sa_family, sun_path, SUN_LEN, sun_path, offsetof_sun_path. cbn [sa size].
  change (le_encode 2 AF_UNIX) with [x01; x00]. cbn [app firstn skipn].
  rewrite ?take_0, ?drop_0. rewrite strlen_take_nul.
  repeat split; try done.
  cbn [length]. rewrite length_app, length_take. cbn [length]. lia.
Qed.

(** X9. On Linux, when nothing overflows, [make_addr_unix_abstract] asks
    [xalloc] once for the header, the family, the leading NUL and the [nr]
    name bytes; [sun_path] is that NUL followed by exactly the first [nr]
    bytes given, NUL bytes among them included, and [size] counts the
    family, the leading NUL and the name. [make_addr_unix_abstract_s] does
    the same with the bytes of the string before its terminator. *)
Theorem make_addr_unix_abstract_record (bytes : list byte) (nr : Z) :
  0 <= offsetof_addr ->
  0 <= nr <= Z.of_nat (length bytes) ->
  offsetof_addr + offsetof_sun_path + 1 + nr <= SIZE_MAX ->
  (exists a,
      make_addr_unix_abstract true bytes nr
      = ([offsetof_addr + offsetof_sun_path + 1 + nr], Ok a)
      /\ sa_family a = AF_UNIX
      /\ sun_path a = x00 :: take (Z.to_nat nr) bytes
      /\ size a = to_socklen_t (offsetof_sun_path + 1 + nr)
      /\ Z.of_nat (length (sa a)) = offsetof_sun_path + 1 + nr)
  /\ (nr = Z.of_nat (strlen bytes) ->
      make_addr_unix_abstract_s true bytes = make_addr_unix_abstract true bytes nr).
Proof using SIZE_MAX offsetof_addr.
  intros Hoff Hnr Hfit. split.
  - unfold make_addr_unix_abstract. unfold offsetof_sun_path in Hfit |- *.
    rewrite !to_size_t_small by lia. rewrite SATADD_fits by lia.
    eexists. split; [reflexivity|].
    unfold sa_family, sun_path. cbn [sa size].
    change (le_encode 2 AF_UNIX) with [x01; x00]. cbn [app firstn skipn].
    rewrite ?take_0, ?drop_0.
    repeat split; try done.
    + f_equal. lia.
    + cbn [length]. rewrite length_take. lia.
  - intros ->. reflexivity.
Qed.

(** X10. What [describe_addr] prints for the record of a path without NUL
    bytes: the path without its last [offsetof(struct addr, addr)] bytes
    inside "[unixfilesystem:[" and "]]", and a death with EINVAL "illegal
    AF_UNIX addr" when the path is shorter than that offset. *)
Theorem describe_unix_filesystem_rendering (p : list byte) :
  0 <= offsetof_addr ->
  offsetof_addr + offsetof_sun_path + (Z.of_nat (length p) + 1) <= SIZE_MAX ->
  strlen p = length p -> p <> [] ->
  Z.of_nat (length p) <= INT_MAX ->
  describe_made (make_addr_unix_filesystem p)
  = if Z.of_nat (length p) <? offsetof_addr
    then Die EINVAL "illegal AF_UNIX addr"
    else Ok ("[unixfilesystem:["
             ++ string_of_list_byte
                  (take (Z.to_nat (Z.of_nat (length p) - offsetof_addr)) p)
             ++ "]]")%string.
Proof. apply describe_make_addr_unix_filesystem. Qed.

(** X11. What [describe_addr] prints for the record of an abstract name of
    [nr] bytes: at most [nr + 1 - offsetof(struct addr, addr)] bytes of the
    name, and none after a NUL byte in it, inside "[unixabstract:[" and
    "]]"; and a death with EINVAL when [nr + 1] is below that offset. *)
Theorem describe_unix_abstract_rendering (bytes : list byte) (nr : Z) :
  0 <= offsetof_addr ->
  0 <= nr <= Z.of_nat (length bytes) ->
  offsetof_addr + offsetof_sun_path + 1 + nr <= SIZE_MAX ->
  nr <= INT_MAX -> nr + 1 - offsetof_addr <= INT_MAX ->
  describe_made (make_addr_unix_abstract true bytes nr)
  = if nr + 1 <? offsetof_addr
    then Die EINVAL "illegal AF_UNIX addr"
    else Ok ("[unixabstract:["
             ++ printf_prec_s (nr + 1 - offsetof_addr) (take (Z.to_nat nr) bytes)
             ++ "]]")%string.
Proof.
  intros Hoff Hnr Hfit Hmax Hprec.
  unfold describe_made, make_addr_unix_abstract.
  unfold offsetof_sun_path, INT_MAX in *.
  rewrite !to_size_t_small by lia. rewrite SATADD_fits by lia.
  cbn [snd mbind outcome_bind].
  unfold describe_addr, sa_family, sun_path. cbn [sa size].
  change (le_encode 2 AF_UNIX) with [x01; x00]. cbn [app firstn skipn].
  rewrite ?take_0, ?drop_0. change (le_decode [x01; x00]) with 1.
  change (1 =? AF_INET) with false. change (1 =? AF_INET6) with false.
  change (1 =? AF_UNIX) with true. cbv iota.
  unfold offsetof_sun_path, to_socklen_t, INT_MAX.
  rewrite Z.mod_small by lia. rewrite to_size_t_small by lia.
  replace (offsetof_addr + 2 + 1 + nr - offsetof_addr <? offsetof_addr + 2)
    with (nr + 1 <? offsetof_addr)
    by (destruct (Z.ltb_spec (nr + 1) offsetof_addr),
          (Z.ltb_spec (offsetof_addr + 2 + 1 + nr - offsetof_addr) (offsetof_addr + 2));
        lia || done).
  destruct (Z.ltb_spec (nr + 1) offsetof_addr); [done|].
  replace (offsetof_addr + 2 + 1 + nr - offsetof_addr - (offsetof_addr + 2))
    with (nr + 1 - offsetof_addr) by lia.
  destruct (Z.ltb_spec (2 ^ 31 - 1) (nr + 1 - offsetof_addr)); [lia|].
  change (Byte.eqb x00 x00) with true. done.
Qed.

(** X12. [describe_addr] dies in two ways only: with the errno of a failed
    [inet_ntop] for an IPv4 or IPv6 record, and with EINVAL "illegal
    AF_UNIX addr" for an AF_UNIX record whose [size] is below
    [offsetof(struct addr, addr_un.sun_path)]. A record of any other family
    is always described, as "[unknown address family N]". *)
Theorem describe_addr_failures (a : addr) :
  (forall code msg,
      describe_addr a = Die code msg ->
      ((sa_family a = AF_INET \/ sa_family a = AF_INET6)
       /\ msg = "inet_ntop"%string
       /\ exists src, inet_ntop (sa_family a) src = inl code)
      \/ (sa_family a = AF_UNIX
          /\ size a < to_size_t (offsetof_addr + offsetof_sun_path)
          /\ code = EINVAL /\ msg = "illegal AF_UNIX addr"%string))
  /\ (sa_family a <> AF_INET -> sa_family a <> AF_INET6 -> sa_family a <> AF_UNIX ->
      describe_addr a
      = Ok ("[unknown address family " ++ show_int (sa_family a) ++ "]")%string).
Proof.
  unfold describe_addr, die_errno. split.
  - intros code msg.
    destruct (Z.eqb_spec (sa_family a) AF_INET) as [Hin|_].
    { destruct (inet_ntop (sa_family a) (sin_addr a)) as [e|buf] eqn:E; [|done].
      intros [= <- <-]. left. eauto. }
    destruct (Z.eqb_spec (sa_family a) AF_INET6) as [Hin6|_].
    { destruct (inet_ntop (sa_family a) (sin6_addr a)) as [e|buf] eqn:E; [|done].
      intros [= <- <-]. left. eauto. }
    destruct (Z.eqb_spec (sa_family a) AF_UNIX) as [Hun|_]; [|done].
    destruct (Z.ltb_spec (size a) (to_size_t (offsetof_addr + offsetof_sun_path)))
      as [Hsmall|_].
    + intros [= <- <-]. by right.
    + destruct (sun_path a) as [|b path]; [done|]. by destruct (Byte.eqb b x00).
  - intros Hin Hin6 Hun.
    destruct (Z.eqb_spec (sa_family a) AF_INET); [done|].
    destruct (Z.eqb_spec (sa_family a) AF_INET6); [done|].
    by destruct (Z.eqb_spec (sa_family a) AF_UNIX).
Qed.

(** X13. An IPv4 or IPv6 socket address copied by [addrinfo2addr] is
    described as "[host:port]": the host is what [inet_ntop] gives for the
    4 (resp. 16) address bytes, the port is the value of the two port
    bytes read in network order. *)
Theorem describe_addrinfo2addr_inet
    (hi lo : byte) (addr4 flow addr6 pad : list byte) (host : string) :
  0 <= offsetof_addr ->
  length addr4 = 4%nat -> length flow = 4%nat -> length addr6 = 16%nat ->
  offsetof_addr + 24 + Z.of_nat (length pad) <= SIZE_MAX ->
  (inet_ntop AF_INET addr4 = inr host ->
   describe_made
     (addrinfo2addr (8 + Z.of_nat (length pad))
                    ([x02; x00; hi; lo] ++ addr4 ++ pad))
   = Ok ("[" ++ host ++ ":" ++ show_int (256 * Z_of_byte hi + Z_of_byte lo) ++ "]")%string)
  /\ (inet_ntop AF_INET6 addr6 = inr host ->
      describe_made
        (addrinfo2addr (24 + Z.of_nat (length pad))
                       ([x0a; x00; hi; lo] ++ flow ++ addr6 ++ pad))
      = Ok ("[" ++ host ++ ":" ++ show_int (256 * Z_of_byte hi + Z_of_byte lo) ++ "]")%string).
Proof.
  intros Hoff H4 Hflow H6 Hfit. split; intros Hhost.
  - unfold describe_made, addrinfo2addr.
    rewrite !to_size_t_small by lia. rewrite SATADD_fits by lia.
    cbn [snd mbind outcome_bind].
    rewrite take_ge by (rewrite !length_app, H4; cbn [length]; lia).
    destruct addr4 as [|a [|b [|c [|d [|? ?]]]]]; try discriminate H4.
    unfold describe_addr, sa_family, sin_addr, sin_port. cbn [sa app firstn skipn].
    change (le_decode [x02; x00]) with AF_INET. rewrite Z.eqb_refl.
    rewrite take_0. by rewrite Hhost.
  - unfold describe_made, addrinfo2addr.
    rewrite !to_size_t_small by lia. rewrite SATADD_fits by lia.
    cbn [snd mbind outcome_bind].
    rewrite take_ge by (rewrite !length_app, Hflow, H6; cbn [length]; lia).
    destruct flow as [|f1 [|f2 [|f3 [|f4 [|? ?]]]]]; try discriminate Hflow.
    unfold describe_addr, sa_family, sin6_addr, sin6_port. cbn [sa app firstn skipn].
    change (le_decode [x0a; x00]) with AF_INET6.
    change (AF_INET6 =? AF_INET) with false. rewrite Z.eqb_refl.
    rewrite drop_0, take_app_length' by done. by rewrite Hhost.
Qed.

End Records.

(** The record of net.h on Linux, 64 bits: a 4-byte [size] before the union. *)
Module Linux64.
Definition SIZE_MAX : Z := 2 ^ 64 - 1.
Definition offsetof_addr : Z := 4.
(** [inet_ntop] for AF_INET (dotted decimal); the text form of IPv6 is not
    modelled, other families fail with EAFNOSUPPORT. *)
Definition inet_ntop (family : Z) (src : list byte) : Z + string :=
  match src with
  | [a; b; c; d] =>
      if family =? AF_INET
      then inr (show_int (Z_of_byte a) ++ "." ++ show_int (Z_of_byte b) ++ "."
                ++ show_int (Z_of_byte c) ++ "." ++ show_int (Z_of_byte d))%string
      else inl 97
  | _ => inl 97
  end.
Definition make_addr_unix_filesystem := Addr.make_addr_unix_filesystem SIZE_MAX offsetof_addr.
Definition make_addr_unix_abstract := Addr.make_addr_unix_abstract SIZE_MAX offsetof_addr.
Definition describe_addr := Addr.describe_addr SIZE_MAX offsetof_addr inet_ntop.
Definition describe_made := Addr.describe_made SIZE_MAX offsetof_addr inet_ntop.
Definition addrinfo2addr := Addr.addrinfo2addr SIZE_MAX offsetof_addr.
End Linux64.

Lemma constructors_refuse_overflow_witness :
  Addr.make_addr_unix_filesystem 65535 4 (replicate (Z.to_nat 65530) "a"%byte)
  = ([], Die EINVAL "socket name too long")
  /\ Linux64.make_addr_unix_abstract true [] (2 ^ 64 - 1)
     = ([], Die EINVAL "socket name too long")
  /\ Linux64.make_addr_unix_abstract false [] 0
     = ([], Die ENOSYS "this system does not support abstract AF_UNIX")
  /\ Addr.addrinfo2addr (2 ^ 32 - 1) 4 (2 ^ 32 - 1) []
     = ([], Die EINVAL "address too long").
Proof.
  split; [|split; [|split]].
  - pose proof (constructors_refuse_overflow 65535 4
                  ltac:(by vm_compute) ltac:(by vm_compute)) as (H & _).
    apply H; vm_compute; reflexivity.
  - apply (constructors_refuse_overflow Linux64.SIZE_MAX Linux64.offsetof_addr);
      by vm_compute.
  - apply (constructors_refuse_overflow Linux64.SIZE_MAX Linux64.offsetof_addr);
      by vm_compute.
  - apply (constructors_refuse_overflow (2 ^ 32 - 1) 4); by vm_compute.
Defined.

(** C2 on the code. With the 4-byte [size] member in front of the union,
    the address made from "/tmp/sock" is described without its last four
    bytes, the one made from "/a" cannot be described at all, and the
    abstract names "abc" and "abcdefgh" lose their last three bytes. *)
Theorem describe_made_unix_drops_bytes :
  Linux64.describe_made
    (Linux64.make_addr_unix_filesystem (list_byte_of_string "/tmp/sock"))
  = Ok "[unixfilesystem:[/tmp/]]"%string
  /\ Linux64.describe_made
       (Linux64.make_addr_unix_filesystem (list_byte_of_string "/a"))
     = Die EINVAL "illegal AF_UNIX addr"
  /\ Linux64.describe_made
       (Linux64.make_addr_unix_abstract true (list_byte_of_string "abc") 3)
     = Ok "[unixabstract:[]]"%string
  /\ Linux64.describe_made
       (Linux64.make_addr_unix_abstract true (list_byte_of_string "abcdefgh") 8)
     = Ok "[unixabstract:[abcde]]"%string.
Proof. repeat split; vm_compute; reflexivity. Qed.

(** An IPv4 address copied by [addrinfo2addr] is described by its numeric
    host and port. *)
Example describe_made_inet :
  Linux64.describe_made (Linux64.addrinfo2addr 16 Resolver.Glibc64.sockaddr_1)
  = Ok "[127.0.0.1:80]"%string.
Proof. vm_compute. reflexivity. Qed.

(** ** Further runs on the Linux record *)

Lemma make_addr_unix_filesystem_record_witness :
  exists a,
    Linux64.make_addr_unix_filesystem (list_byte_of_string "/tmp/sock")
    = ([16], Ok a)
    /\ sa_family a = AF_UNIX
    /\ sun_path a = list_byte_of_string "/tmp/sock" ++ [x00]
    /\ size a = 11
    /\ Linux64.offsetof_addr + Z.of_nat (length (sa a)) = 16.
Proof.
  apply (make_addr_unix_filesystem_record Linux64.SIZE_MAX Linux64.offsetof_addr
           (list_byte_of_string "/tmp/sock")).
  - vm_compute. discriminate.
  - vm_compute. discriminate.
Defined.

Lemma make_addr_unix_abstract_record_witness :
  exists a,
    Linux64.make_addr_unix_abstract true [x61; x00; x62; x63] 3 = ([10], Ok a)
    /\ sa_family a = AF_UNIX
    /\ sun_path a = [x00; x61; x00; x62]
    /\ size a = 6
    /\ Z.of_nat (length (sa a)) = 6.
Proof.
  apply (make_addr_unix_abstract_record Linux64.SIZE_MAX Linux64.offsetof_addr
           [x61; x00; x62; x63] 3).
  - vm_compute. discriminate.
  - vm_compute. split; discriminate.
  - vm_compute. discriminate.
Defined.

Lemma describe_unix_filesystem_rendering_witness :
  Linux64.describe_made
    (Linux64.make_addr_unix_filesystem (list_byte_of_string "/var/run/fb-adb"))
  = Ok "[unixfilesystem:[/var/run/fb]]"%string.
Proof.
  apply (describe_unix_filesystem_rendering Linux64.SIZE_MAX Linux64.offsetof_addr
           Linux64.inet_ntop (list_byte_of_string "/var/run/fb-adb")).
  - vm_compute. discriminate.
  - vm_compute. discriminate.
  - vm_compute. reflexivity.
  - discriminate.
  - vm_compute. discriminate.
Defined.

Lemma describe_unix_abstract_rendering_witness :
  Linux64.describe_made
    (Linux64.make_addr_unix_abstract true (list_byte_of_string "fb-adb-stub") 11)
  = Ok "[unixabstract:[fb-adb-s]]"%string.
Proof.
  apply (describe_unix_abstract_rendering Linux64.SIZE_MAX Linux64.offsetof_addr
           Linux64.inet_ntop (list_byte_of_string "fb-adb-stub") 11).
  - vm_compute. discriminate.
  - vm_compute. split; discriminate.
  - vm_compute. discriminate.
  - vm_compute. discriminate.
  - vm_compute. discriminate.
Defined.

Lemma describe_addr_failures_witness :
  Linux64.describe_addr (mk_addr 16 [x11; x00; x00; x00])
  = Ok "[unknown address family 17]"%string.
Proof.
  apply (describe_addr_failures Linux64.SIZE_MAX Linux64.offsetof_addr
           Linux64.inet_ntop (mk_addr 16 [x11; x00; x00; x00]));
    vm_compute; discriminate.
Defined.

Lemma describe_addrinfo2addr_inet_witness :
  Linux64.describe_made
    (Linux64.addrinfo2addr 16
       ([x02; x00; x1f; x90] ++ [xc0; xa8; x00; x01]
        ++ [x00; x00; x00; x00; x00; x00; x00; x00]))
  = Ok "[192.168.0.1:8080]"%string.
Proof.
  apply (describe_addrinfo2addr_inet Linux64.SIZE_MAX Linux64.offsetof_addr
           Linux64.inet_ntop x1f x90 [xc0; xa8; x00; x01]
           [x00; x00; x00; x00]
           [x00; x00; x00; x00; x00; x00; x00; x00;
            x00; x00; x00; x00; x00; x00; x00; x01]
           [x00; x00; x00; x00; x00; x00; x00; x00] "192.168.0.1").
  - vm_compute. discriminate.
  - reflexivity.
  - reflexivity.
  - reflexivity.
  - vm_compute. discriminate.
  - vm_compute. reflexivity.
Defined.

End Addr.

(** * The socket syscall layer *)

Module Sock.

(** What the kernel answers to one system call: the return value, [errno]
    (meaningful when the call failed) and, for [socketpair], the two
    descriptors stored in the array. *)
Record reply : Type := mk_reply {
  rc : Z;
  errno : Z;
  sv : Z * Z
}.

(** The process as the wrappers see it: the answers the coming system calls
    will get, in order; the open descriptors; those with FD_CLOEXEC set; and
    the cleanup slots of the current resource list, oldest first, each empty
    or armed with a descriptor to close. *)
Record world : Type := mk_world {
  replies : list reply;
  open_fds : gset Z;
  cloexec_fds : gset Z;
  reslist : list (option Z)
}.

(** A computation either never comes back (the kernel never answers: [None])
    or ends, normally or by [die], in a new state of the process. *)
Definition M (A : Type) : Type := world -> option (outcome A * world).

#[global] Instance M_ret : MRet M := fun A a w => Some (Ok a, w).
#[global] Instance M_bind : MBind M := fun A B k m w =>
  match m w with
  | None => None
  | Some (Ok a, w') => k a w'
  | Some (Die c s, w') => Some (Die c s, w')
  end.

(** [die(code, msg)]. *)
Definition die {A} (code : Z) (msg : string) : M A :=
  fun w => Some (Die code msg, w).

(** Modelled from the spec: [die_errno] of util.c, which is not among the
    sources: a fatal condition annotated with the OS error code and naming
    the failing operation. *)
Definition die_errno {A} (e : Z) (op : string) : M A := die e op.

(** One system call: the kernel's next answer. *)
Definition syscall : M reply := fun w =>
  match replies w with
  | [] => None
  | r :: rs => Some (Ok r, mk_world rs (open_fds w) (cloexec_fds w) (reslist w))
  end.

(** [do { r = call(); } while (r == -1 && errno == EINTR);] over the
    kernel's answers: the first one that is not an interruption, and the
    answers left. *)
Fixpoint until_not_EINTR (rs : list reply) : option (reply * list reply) :=
  match rs with
  | [] => None
  | r :: rs' =>
      if (rc r =? -1) && (errno r =? EINTR)
      then until_not_EINTR rs'
      else Some (r, rs')
  end.

Definition syscall_retrying_EINTR : M reply := fun w =>
  match until_not_EINTR (replies w) with
  | None => None
  | Some (r, rs) => Some (Ok r, mk_world rs (open_fds w) (cloexec_fds w) (reslist w))
  end.

(** The kernel side of a call that creates the descriptor [fd]. *)
Definition kernel_opens (fd : Z) (with_cloexec : bool) : M unit := fun w =>
  Some (Ok tt,
        mk_world (replies w) ({[fd]} ∪ open_fds w)
                 (if with_cloexec then {[fd]} ∪ cloexec_fds w else cloexec_fds w ∖ {[fd]})
                 (reslist w)).

Definition close (fd : Z) (w : world) : world :=
  mk_world (replies w) (open_fds w ∖ {[fd]}) (cloexec_fds w ∖ {[fd]}) (reslist w).

(** Modelled from the spec: the Resource-Commit Guard of util.c, which is
    not among the sources. [cleanup_allocate] reserves an empty slot in the
    current resource list; [cleanup_commit_close_fd] arms it with a
    descriptor; when a failure leaves the scope every armed slot closes its
    descriptor, newest first, before the failure reaches the handler; on
    success the slots pass to the enclosing list ([catch_error]). *)
Definition cleanup_allocate : M nat := fun w =>
  Some (Ok (length (reslist w)),
        mk_world (replies w) (open_fds w) (cloexec_fds w) (reslist w ++ [None])).

Definition cleanup_commit_close_fd (cl : nat) (fd : Z) : M unit := fun w =>
  Some (Ok tt,
        mk_world (replies w) (open_fds w) (cloexec_fds w) (<[cl := Some fd]> (reslist w))).

Fixpoint run_cleanups (slots : list (option Z)) (w : world) : world :=
  match slots with
  | [] => w
  | slot :: older =>
      run_cleanups older (match slot with Some fd => close fd w | None => w end)
  end.

Definition catch_error {A} (body : M A) : M A := fun w =>
  match body (mk_world (replies w) (open_fds w) (cloexec_fds w) []) with
  | None => None
  | Some (Ok a, w') =>
      Some (Ok a, mk_world (replies w') (open_fds w') (cloexec_fds w')
                           (reslist w ++ reslist w'))
  | Some (Die c s, w') =>
      let w'' := run_cleanups (reverse (reslist w')) w' in
      Some (Die c s, mk_world (replies w'') (open_fds w'') (cloexec_fds w'') (reslist w))
  end.

(** Modelled from the spec: [merge_O_CLOEXEC_into_fd_flags] and
    [fd_set_blocking_mode] of fs.c and [assert_cloexec] of util.c, which are
    not among the sources: close-on-exec is applied right after creation
    with one [fcntl], fatal when the kernel refuses, and then asserted. *)
Definition merge_O_CLOEXEC_into_fd_flags (fd : Z) : M unit :=
  r ← syscall;
  if rc r =? -1 then die_errno (errno r) "fcntl"
  else fun w =>
    Some (Ok tt, mk_world (replies w) (open_fds w) ({[fd]} ∪ cloexec_fds w) (reslist w)).

Definition fd_set_blocking_mode (fd : Z) : M unit :=
  r ← syscall;
  if rc r =? -1 then die_errno (errno r) "fcntl" else mret tt.

Definition assert_cloexec (fd : Z) : M unit := fun w =>
  if decide (fd ∈ cloexec_fds w) then Some (Ok tt, w)
  else Some (Die EINVAL "assert_cloexec", w).


(** Answers of the kernel used in the scenarios below. *)
Definition answer_ok : reply := mk_reply 0 0 (0, 0).
Definition answer_EINTR : reply := mk_reply (-1) EINTR (0, 0).
Definition answer_EAGAIN : reply := mk_reply (-1) EAGAIN (0, 0).
Definition answer_EBADF : reply := mk_reply (-1) 9 (0, 0).

(** Two interruptions, then a would-block failure, then a success. *)
Definition w_interrupted : world :=
  mk_world [answer_EINTR; answer_EINTR; answer_EAGAIN; answer_ok] {[0; 1; 2; 3]} ∅ [].

(** A platform without SOCK_CLOEXEC: [socketpair] hands out 3 and 4, the
    [fcntl] on 3 succeeds and the one on 4 fails with EBADF. *)
Definition w_pair_fails : world :=
  mk_world [mk_reply 0 0 (3, 4); answer_ok; answer_EBADF] {[0; 1; 2]} ∅ [].

(** The kernel creates descriptor 5 and later refuses a connect (111,
    ECONNREFUSED); it creates descriptor 5 and the [fcntl] after it fails;
    it accepts a connection as descriptor 7 and the [fcntl] after it fails. *)
Definition answer_fd (fd : Z) : reply := mk_reply fd 0 (0, 0).
Definition answer_ECONNREFUSED : reply := mk_reply (-1) 111 (0, 0).
Definition w_socket : world := mk_world [answer_fd 5] {[0; 1; 2]} ∅ [].
Definition w_socket_refused : world :=
  mk_world [answer_fd 5; answer_ECONNREFUSED] {[0; 1; 2]} ∅ [].
Definition w_socket_fcntl_fails : world :=
  mk_world [answer_fd 5; answer_EBADF] {[0; 1; 2]} ∅ [].
Definition w_accept_fcntl_fails : world :=
  mk_world [answer_EINTR; answer_fd 7; answer_EBADF] {[0; 1; 2; 3]} ∅ [].
Definition w_pair : world := mk_world [mk_reply 0 0 (3, 4)] {[0; 1; 2]} ∅ [].

(** A call interrupted by a signal. *)
Definition interrupted (r : reply) : Prop := rc r = -1 /\ errno r = EINTR.

Definition with_replies (rs : list reply) (w : world) : world :=
  mk_world rs (open_fds w) (cloexec_fds w) (reslist w).

Section Wrappers.

(** [#ifdef SOCK_CLOEXEC], [#ifdef HAVE_ACCEPT4] and [#ifdef __linux__].
    [WITH_IO_SIGNALS_ALLOWED()] changes the signal mask around the call and
    shows here only through the interruptions the kernel reports. *)
Variable have_SOCK_CLOEXEC : bool.
Variable HAVE_ACCEPT4 : bool.
Variable linux : bool.

Definition xconnect (fd : Z) : M unit :=
  r ← syscall_retrying_EINTR;
  if rc r =? -1 then die_errno (errno r) "connect" else mret tt.

Definition xlisten (fd backlog : Z) : M unit :=
  r ← syscall;
  if rc r =? -1 then die_errno (errno r) "listen" else mret tt.

Definition xbind (fd : Z) : M unit :=
  r ← syscall;
  if rc r =? -1 then die_errno (errno r) "bind" else mret tt.

Definition xsetsockopt (fd level opname : Z) : M unit :=
  r ← syscall;
  if rc r =? -1 then die_errno (errno r) "setsockopt" else mret tt.

Definition xshutdown (socketfd how : Z) : M unit :=
  r ← syscall;
  if rc r =? -1
  then die_errno (errno r)
         ("shutdown(" ++ show_int socketfd ++ ", " ++ show_int how ++ ")")
  else mret tt.

Definition disable_tcp_nagle (fd : Z) : M unit := xsetsockopt fd 6 1.

Definition xsocket (domain type protocol : Z) : M Z :=
  cl ← cleanup_allocate;
  r ← syscall;
  let s := rc r in
  if s <? 0 then die_errno (errno r) "socket"
  else
    kernel_opens s have_SOCK_CLOEXEC;;
    cleanup_commit_close_fd cl s;;
    (if have_SOCK_CLOEXEC then mret tt else merge_O_CLOEXEC_into_fd_flags s);;
    assert_cloexec s;;
    mret s.

Definition xaccept_internal (server_socket : Z) (allow_eagain : bool) : M Z :=
  cl ← cleanup_allocate;
  r ← syscall_retrying_EINTR;
  let s := rc r in
  if allow_eagain && (s =? -1) && ((errno r =? EAGAIN) || (errno r =? EWOULDBLOCK))
  then mret (-1)
  else if s =? -1 then die_errno (errno r) "accept"
  else
    kernel_opens s HAVE_ACCEPT4;;
    cleanup_commit_close_fd cl s;;
    (if HAVE_ACCEPT4 then mret tt else merge_O_CLOEXEC_into_fd_flags s);;
    assert_cloexec s;;
    mret s.

Definition xaccept (server_socket : Z) : M Z :=
  xaccept_internal server_socket false.

Definition xaccept_nonblock (server_socket : Z) : M Z :=
  socket ← xaccept_internal server_socket true;
  (if negb (socket =? -1) && negb linux
   then fd_set_blocking_mode socket else mret tt);;
  mret socket.

Definition xsocketpair (domain type protocol : Z) : M (Z * Z) :=
  cl0 ← cleanup_allocate;
  cl1 ← cleanup_allocate;
  r ← syscall;
  if rc r <? 0 then die_errno (errno r) "socketpair"
  else
    let fd := sv r in
    kernel_opens fd.1 have_SOCK_CLOEXEC;;
    kernel_opens fd.2 have_SOCK_CLOEXEC;;
    cleanup_commit_close_fd cl0 fd.1;;
    cleanup_commit_close_fd cl1 fd.2;;
    (if have_SOCK_CLOEXEC then mret tt
     else merge_O_CLOEXEC_into_fd_flags fd.1;;
          merge_O_CLOEXEC_into_fd_flags fd.2);;
    assert_cloexec fd.1;;
    assert_cloexec fd.2;;
    mret (fd.1, fd.2).

Definition xsocketpairnc (domain type protocol : Z) : M (Z * Z) :=
  r ← syscall;
  if rc r <? 0 then die_errno (errno r) "socketpair"
  else
    let sv := sv r in
    kernel_opens sv.1 have_SOCK_CLOEXEC;;
    kernel_opens sv.2 have_SOCK_CLOEXEC;;
    (if have_SOCK_CLOEXEC then mret tt
     else merge_O_CLOEXEC_into_fd_flags sv.1;;
          merge_O_CLOEXEC_into_fd_flags sv.2);;
    assert_cloexec sv.1;;
    assert_cloexec sv.2;;
    mret sv.

(** ** Interrupted calls *)

Ltac step_M :=
  repeat (unfold mbind, M_bind, mret, M_ret, syscall, syscall_retrying_EINTR,
            cleanup_allocate, cleanup_commit_close_fd, kernel_opens, die, die_errno,
            merge_O_CLOEXEC_into_fd_flags, fd_set_blocking_mode, assert_cloexec,
            with_replies in *;
          cbn [replies open_fds cloexec_fds reslist length app fst snd] in *).

Lemma until_not_EINTR_skips (pre : list reply) (r : reply) (rs : list reply) :
  Forall interrupted pre -> ~ interrupted r ->
  until_not_EINTR (pre ++ r :: rs) = Some (r, rs).
Proof.
  intros Hpre Hr. induction Hpre as [|i pre [Hrc He] _ IH]; cbn [app until_not_EINTR].
  - destruct (Z.eqb_spec (rc r) (-1)), (Z.eqb_spec (errno r) EINTR);
      cbn [andb]; try done. by destruct Hr.
  - by rewrite Hrc, He, IH.
Qed.

Lemma until_not_EINTR_result (rs rs' : list reply) (r : reply) :
  until_not_EINTR rs = Some (r, rs') -> ~ interrupted r.
Proof.
  induction rs as [|i rs IH]; cbn [until_not_EINTR]; [done|].
  destruct (Z.eqb_spec (rc i) (-1)), (Z.eqb_spec (errno i) EINTR);
    cbn [andb]; try done; intros [= <- <-] [? ?]; done.
Qed.

(** C6, as the code has it. [xconnect] and [xaccept_internal] (so [xaccept]
    and [xaccept_nonblock]) go past every answer that is an interruption
    and act on the first one that is not: a failure there is fatal with its
    errno, which is never EINTR, except that with [allow_eagain] a
    would-block failure of accept gives -1 without another call. The
    wrappers [xlisten], [xbind], [xsetsockopt], [xshutdown], [xsocket],
    [xsocketpair] and [xsocketpairnc] call once: any failure of theirs, an
    interruption included, is fatal. *)
Theorem interruption_handling (w : world) (pre : list reply) (r : reply) (rs : list reply) :
  replies w = pre ++ r :: rs ->
  Forall interrupted pre -> ~ interrupted r ->
  (forall fd,
      xconnect fd w
      = Some (if rc r =? -1 then Die (errno r) "connect" else Ok tt, with_replies rs w))
  /\ (forall fd c m w', xconnect fd w = Some (Die c m, w') -> c <> EINTR)
  /\ (forall server_socket allow_eagain,
         rc r = -1 ->
         xaccept_internal server_socket allow_eagain w
         = Some (if allow_eagain && ((errno r =? EAGAIN) || (errno r =? EWOULDBLOCK))
                 then Ok (-1) else Die (errno r) "accept",
                 mk_world rs (open_fds w) (cloexec_fds w) (reslist w ++ [None])))
  /\ (forall fd backlog level opname how first,
         hd_error (replies w) = Some first -> rc first = -1 ->
         xlisten fd backlog w
         = Some (Die (errno first) "listen", with_replies (tl (replies w)) w)
         /\ xbind fd w
            = Some (Die (errno first) "bind", with_replies (tl (replies w)) w)
         /\ xsetsockopt fd level opname w
            = Some (Die (errno first) "setsockopt", with_replies (tl (replies w)) w)
         /\ xshutdown fd how w
            = Some (Die (errno first)
                        ("shutdown(" ++ show_int fd ++ ", " ++ show_int how ++ ")"),
                    with_replies (tl (replies w)) w)
         /\ xsocket fd level opname w
            = Some (Die (errno first) "socket",
                    mk_world (tl (replies w)) (open_fds w) (cloexec_fds w)
                             (reslist w ++ [None]))
         /\ xsocketpair fd level opname w
            = Some (Die (errno first) "socketpair",
                    mk_world (tl (replies w)) (open_fds w) (cloexec_fds w)
                             ((reslist w ++ [None]) ++ [None]))
         /\ xsocketpairnc fd level opname w
            = Some (Die (errno first) "socketpair", with_replies (tl (replies w)) w)).
Proof.
  intros Hw Hpre Hr.
  pose proof (until_not_EINTR_skips pre r rs Hpre Hr) as Hskip.
  rewrite <- Hw in Hskip.
  assert (Hconnect : forall fd,
    xconnect fd w
    = Some (if rc r =? -1 then Die (errno r) "connect" else Ok tt, with_replies rs w)).
  { intros fd. unfold xconnect. step_M. rewrite Hskip. by destruct (rc r =? -1). }
  split; [done|]. split.
  { intros fd c m w'. rewrite Hconnect.
    destruct (Z.eqb_spec (rc r) (-1)) as [Hrc|]; [|done].
    intros [= <- _ _] He. by apply Hr. }
  split.
  { intros server allow Hrc. unfold xaccept_internal. step_M. rewrite Hskip, Hrc.
    change (-1 =? -1) with true. rewrite andb_true_r.
    by destruct (allow && _). }
  intros fd backlog level opname how first Hfirst Hrc.
  unfold xlisten, xbind, xsetsockopt, xshutdown, xsocket, xsocketpair, xsocketpairnc.
  step_M. destruct (replies w) as [|first' rest]; [done|].
  injection Hfirst as ->. cbn [tl]. by rewrite Hrc.
Qed.

Lemma xconnect_never_dies_EINTR fd (w w' : world) (c : Z) (m : string) :
  xconnect fd w = Some (Die c m, w') -> c <> EINTR.
Proof.
  unfold xconnect. step_M.
  destruct (until_not_EINTR (replies w)) as [[r rs]|] eqn:E; [|done].
  apply until_not_EINTR_result in E.
  destruct (Z.eqb_spec (rc r) (-1)) as [Hrc|]; [|done].
  intros [= <- _ _] He. by apply E.
Qed.

(** ** Socket pairs *)

(** Where [xsocketpair] has got to when it dies after [socketpair]
    succeeded: both descriptors are open and both slots are armed. *)
Lemma xsocketpair_dies_armed (domain type protocol : Z) (r : reply) (rs : list reply)
    (o c : gset Z) (code : Z) (msg : string) (w1 : world) :
  0 <= rc r ->
  xsocketpair domain type protocol (mk_world (r :: rs) o c [])
  = Some (Die code msg, w1) ->
  open_fds w1 = {[(sv r).2]} ∪ ({[(sv r).1]} ∪ o)
  /\ reslist w1 = [Some (sv r).1; Some (sv r).2].
Proof.
  intros Hrc. unfold xsocketpair. step_M.
  destruct (Z.ltb_spec (rc r) 0) as [?|_]; [lia|].
  destruct r as [rc0 e [a b]]. cbn [rc errno sv fst snd] in *. intros H.
  destruct have_SOCK_CLOEXEC; step_M;
    repeat (case_match; simplify_eq/=; step_M); done.
Qed.

(** C5, as the code has it, for [xsocketpair]. When [xsocketpair] fails
    inside a [catch_error] scope no descriptor is left open that was not
    open before; in particular, when [socketpair] itself had succeeded,
    both of its descriptors are closed when the failure reaches the
    handler. *)
Theorem xsocketpair_closes_on_failure (domain type protocol : Z) (w w' : world)
    (code : Z) (msg : string) :
  catch_error (xsocketpair domain type protocol) w = Some (Die code msg, w') ->
  open_fds w' ⊆ open_fds w
  /\ forall r rs, replies w = r :: rs -> 0 <= rc r ->
       ((sv r).1 ∉ open_fds w') /\ ((sv r).2 ∉ open_fds w').
Proof.
  unfold catch_error. destruct w as [rs o c sl]. cbn [replies open_fds cloexec_fds reslist].
  destruct (xsocketpair _ _ _ _) as [[[pair|code' msg'] w1]|] eqn:E; [done| |done].
  intros [= -> -> <-]. cbn [open_fds].
  destruct rs as [|r rs]; [done|].
  destruct (Z.ltb_spec (rc r) 0) as [Hneg|Hpos].
  - unfold xsocketpair in E. step_M.
    destruct (Z.ltb_spec (rc r) 0); [|lia]. injection E as _ _ <-.
    cbn. split; [done|]. intros r' rs' [= <- <-] ?. lia.
  - apply xsocketpair_dies_armed in E as [Ho Hs]; [|done].
    rewrite Hs. cbn. rewrite Ho. split; [set_solver|].
    intros r' rs' [= <- <-] _. set_solver.
Qed.

(** ** Descriptors handed back *)

Lemma commit_last (slots : list (option Z)) (slot new : option Z) :
  <[length slots := new]> (slots ++ [slot]) = slots ++ [new].
Proof.
  rewrite insert_app_r_alt by lia. by rewrite Nat.sub_diag.
Qed.

Lemma commit_two (slots : list (option Z)) (a b : option Z) :
  <[S (length slots) := b]> (<[length slots := a]> ((slots ++ [None]) ++ [None]))
  = slots ++ [a; b].
Proof.
  rewrite <- app_assoc. cbn [app].
  rewrite insert_app_r_alt by lia. rewrite Nat.sub_diag. cbn.
  rewrite insert_app_r_alt by lia.
  by replace (S (length slots) - length slots)%nat with 1%nat by lia.
Qed.

Lemma xsocket_sound (domain type protocol : Z) (w w' : world) (s : Z) :
  xsocket domain type protocol w = Some (Ok s, w') ->
  0 <= s
  /\ open_fds w' = {[s]} ∪ open_fds w
  /\ s ∈ cloexec_fds w'
  /\ reslist w' = reslist w ++ [Some s].
Proof using have_SOCK_CLOEXEC.
  unfold xsocket. destruct w as [rs o c sl]. step_M.
  destruct rs as [|r rs]; [done|].
  destruct (Z.ltb_spec (rc r) 0) as [?|Hpos]; [done|].
  cbn [replies open_fds cloexec_fds reslist]. rewrite commit_last.
  destruct have_SOCK_CLOEXEC; step_M; intros H;
    repeat (case_match; simplify_eq/=; step_M);
    (split; [done|]); (split; [done|]); (split; [set_solver|done]).
Qed.

Lemma xsocket_closed_on_failure (domain type protocol : Z) (w w' : world)
    (code : Z) (msg : string) :
  catch_error (xsocket domain type protocol) w = Some (Die code msg, w') ->
  open_fds w' ⊆ open_fds w.
Proof using have_SOCK_CLOEXEC.
  unfold catch_error, xsocket. destruct w as [rs o c sl]. step_M.
  destruct rs as [|r rs]; [done|].
  destruct (Z.ltb_spec (rc r) 0) as [?|Hpos].
  { intros [= _ _ <-]. by cbn. }
  destruct have_SOCK_CLOEXEC; step_M; intros H;
    repeat (case_match; simplify_eq/=; step_M); set_solver.
Qed.

(** X14. The descriptor [xsocket] returns is the one the kernel created:
    it is not negative, it is open, it has close-on-exec set, and the last
    cleanup slot of the resource list is armed to close it; nothing else
    was opened. *)
Theorem xsocket_returns_guarded (domain type protocol : Z) (w w' : world) (s : Z) :
  xsocket domain type protocol w = Some (Ok s, w') ->
  0 <= s
  /\ open_fds w' = {[s]} ∪ open_fds w
  /\ s ∈ cloexec_fds w'
  /\ reslist w' = reslist w ++ [Some s].
Proof using have_SOCK_CLOEXEC. apply xsocket_sound. Qed.

(** X15. When [xsocket] fails inside a [catch_error] scope, also after the
    kernel had created the socket, no descriptor is left open that was not
    open before. *)
Theorem xsocket_no_leak (domain type protocol : Z) (w w' : world)
    (code : Z) (msg : string) :
  catch_error (xsocket domain type protocol) w = Some (Die code msg, w') ->
  open_fds w' ⊆ open_fds w.
Proof using have_SOCK_CLOEXEC. apply xsocket_closed_on_failure. Qed.

(** X16. What [xaccept_internal] returns is either the sentinel -1, only
    with [allow_eagain] and then without any descriptor opened, or the
    descriptor the kernel created: open, with close-on-exec set, and armed
    in the last cleanup slot. So [xaccept] never returns -1. *)
Theorem xaccept_returns (server_socket : Z) (allow_eagain : bool) (w w' : world) (s : Z) :
  xaccept_internal server_socket allow_eagain w = Some (Ok s, w') ->
  ((s = -1 /\ allow_eagain = true
    /\ open_fds w' = open_fds w /\ cloexec_fds w' = cloexec_fds w)
   \/ (s <> -1
       /\ open_fds w' = {[s]} ∪ open_fds w
       /\ s ∈ cloexec_fds w'
       /\ reslist w' = reslist w ++ [Some s]))
  /\ (allow_eagain = false -> s <> -1).
Proof using HAVE_ACCEPT4.
  unfold xaccept_internal. destruct w as [rs o c sl]. step_M.
  destruct (until_not_EINTR rs) as [[r rs']|]; [|done].
  destruct (Z.eqb_spec (rc r) (-1)) as [Hrc|Hrc].
  - rewrite andb_true_r.
    destruct (allow_eagain && ((errno r =? EAGAIN) || (errno r =? EWOULDBLOCK))) eqn:E;
      [|done].
    intros [= <- <-]. apply andb_prop in E as [-> _]. split; [by left|done].
  - rewrite andb_false_r. cbn [andb].
    cbn [replies open_fds cloexec_fds reslist]. rewrite commit_last.
    destruct HAVE_ACCEPT4; step_M; intros H;
      repeat (case_match; simplify_eq/=; step_M);
      (split; [right|done]); (split; [done|]); (split; [done|]);
      (split; [set_solver|done]).
Qed.

(** X17. When [xaccept] or [xaccept_nonblock] fails inside a [catch_error]
    scope (the accept itself, the close-on-exec setup, or the change of
    blocking mode after it), the accepted descriptor, if any, is closed:
    no descriptor is left open that was not open before. *)
Theorem xaccept_no_leak (server_socket : Z) (w w' : world) (code : Z) (msg : string) :
  (catch_error (xaccept server_socket) w = Some (Die code msg, w') ->
   open_fds w' ⊆ open_fds w)
  /\ (catch_error (xaccept_nonblock server_socket) w = Some (Die code msg, w') ->
      open_fds w' ⊆ open_fds w).
Proof using HAVE_ACCEPT4 linux.
  unfold catch_error, xaccept, xaccept_nonblock, xaccept_internal.
  destruct w as [rs o c sl]. step_M.
  destruct (until_not_EINTR rs) as [[r rs']|]; [|done].
  destruct (Z.eqb_spec (rc r) (-1)) as [Hrc|Hrc].
  - rewrite andb_true_r. cbn [andb]. split.
    + intros [= _ _ <-]. by cbn.
    + destruct ((errno r =? EAGAIN) || (errno r =? EWOULDBLOCK)); [done|].
      intros [= _ _ <-]. by cbn.
  - rewrite !andb_false_r. cbn [andb].
    destruct HAVE_ACCEPT4, linux; step_M; split; intros H;
      repeat (case_match; simplify_eq/=; step_M); set_solver.
Qed.

(** X18. The pair [xsocketpair] returns is the pair the kernel stored: both
    descriptors are open, both have close-on-exec set, and the last two
    cleanup slots are armed to close them, in this order. *)
Theorem xsocketpair_returns_guarded (domain type protocol : Z) (w w' : world) (a b : Z) :
  xsocketpair domain type protocol w = Some (Ok (a, b), w') ->
  open_fds w' = {[b]} ∪ ({[a]} ∪ open_fds w)
  /\ a ∈ cloexec_fds w' /\ b ∈ cloexec_fds w'
  /\ reslist w' = reslist w ++ [Some a; Some b].
Proof using have_SOCK_CLOEXEC.
  unfold xsocketpair. destruct w as [rs o c sl]. step_M.
  destruct rs as [|r rs]; [done|].
  destruct (Z.ltb_spec (rc r) 0) as [?|Hpos]; [done|].
  cbn [replies open_fds cloexec_fds reslist].
  rewrite length_app, Nat.add_1_r, commit_two.
  destruct r as [rc0 e [x y]]. cbn [rc errno sv fst snd] in *.
  destruct have_SOCK_CLOEXEC; step_M; intros H;
    repeat (case_match; simplify_eq/=; step_M);
    (split; [done|]); (split; [set_solver|]); (split; [set_solver|done]).
Qed.

(** X19. [xsocketpairnc] never touches the resource list, whatever its
    outcome; when it succeeds both descriptors of the pair are open and
    have close-on-exec set. *)
Theorem xsocketpairnc_registers_nothing (domain type protocol : Z) (w w' : world)
    (o : outcome (Z * Z)) :
  xsocketpairnc domain type protocol w = Some (o, w') ->
  reslist w' = reslist w
  /\ (forall a b, o = Ok (a, b) ->
        open_fds w' = {[b]} ∪ ({[a]} ∪ open_fds w)
        /\ a ∈ cloexec_fds w' /\ b ∈ cloexec_fds w').
Proof using have_SOCK_CLOEXEC.
  unfold xsocketpairnc. destruct w as [rs op c sl]. step_M.
  destruct rs as [|r rs]; [done|].
  destruct (Z.ltb_spec (rc r) 0) as [?|Hpos].
  { intros [= <- <-]. split; [done|]. by intros a b. }
  destruct r as [rc0 e [x y]]. cbn [rc errno sv fst snd] in *.
  destruct have_SOCK_CLOEXEC; step_M; intros H;
    repeat (case_match; simplify_eq/=; step_M);
    (split; [done|]); intros fd1 fd2 Hpair; simplify_eq;
    (split; [done|]); split; set_solver.
Qed.

(** X20. A socket made by [xsocket] and then connected with [xconnect] in
    one [catch_error] scope: when the connect (or the creation before it)
    fails, the socket is closed before the failure reaches the handler and
    the enclosing resource list is as before; when both succeed, the
    socket is open with close-on-exec set and its cleanup slot has passed
    to the enclosing resource list. *)
Theorem socket_then_connect (domain type protocol : Z) (w w' : world)
    (o : outcome Z) :
  catch_error (s ← xsocket domain type protocol; xconnect s;; mret s) w
  = Some (o, w') ->
  match o with
  | Die _ _ => open_fds w' ⊆ open_fds w /\ reslist w' = reslist w
  | Ok s => open_fds w' = {[s]} ∪ open_fds w
            /\ s ∈ cloexec_fds w'
            /\ reslist w' = reslist w ++ [Some s]
  end.
Proof using have_SOCK_CLOEXEC.
  unfold catch_error. unfold mbind at 1, M_bind at 1.
  destruct (xsocket domain type protocol
              (mk_world (replies w) (open_fds w) (cloexec_fds w) []))
    as [[[s0|c0 m0] w0]|] eqn:Es; [| |done].
  - apply xsocket_sound in Es as (_ & Ho & Hc & Hs).
    cbn [open_fds cloexec_fds reslist app] in *.
    unfold xconnect. step_M.
    destruct (until_not_EINTR (replies w0)) as [[r rs]|]; [|done].
    destruct (rc r =? -1).
    + intros [= <- <-]. cbn [open_fds reslist]. rewrite Hs. cbn. rewrite Ho.
      split; [set_solver|done].
    + intros [= <- <-]. cbn [open_fds cloexec_fds reslist]. by rewrite Hs.
  - intros [= <- <-]. cbn [reslist]. split; [|done].
    apply (xsocket_closed_on_failure domain type protocol w _ c0 m0).
    unfold catch_error. by rewrite Es.
Qed.

(** X21. [xaccept_nonblock], when the first answer that is not an
    interruption is a would-block failure, returns -1 on every platform:
    it asks the kernel nothing more (the blocking mode is only changed on
    an accepted descriptor), opens nothing and leaves its cleanup slot
    empty. *)
Theorem xaccept_nonblock_would_block (server_socket : Z) (w : world)
    (pre : list reply) (r : reply) (rs : list reply) :
  replies w = pre ++ r :: rs ->
  Forall interrupted pre ->
  rc r = -1 -> errno r = EAGAIN \/ errno r = EWOULDBLOCK ->
  xaccept_nonblock server_socket w
  = Some (Ok (-1), mk_world rs (open_fds w) (cloexec_fds w) (reslist w ++ [None])).
Proof using HAVE_ACCEPT4 linux.
  intros Hw Hpre Hrc Herr.
  assert (Hr : ~ interrupted r).
  { intros [_ He]. rewrite He in Herr. by destruct Herr. }
  pose proof (until_not_EINTR_skips pre r rs Hpre Hr) as Hskip.
  rewrite <- Hw in Hskip.
  unfold xaccept_nonblock, xaccept_internal. step_M. rewrite Hskip, Hrc.
  change (-1 =? -1) with true. cbn [andb].
  assert (Hor : (errno r =? EAGAIN) || (errno r =? EWOULDBLOCK) = true).
  { destruct Herr as [->| ->]; by rewrite Z.eqb_refl, ?orb_true_r. }
  rewrite Hor. reflexivity.
Qed.

End Wrappers.

(** ** Scenarios *)

Lemma interruption_handling_witness :
  xconnect 3 w_interrupted
  = Some (Die EAGAIN "connect", with_replies [answer_ok] w_interrupted)
  /\ xaccept_internal true 3 true w_interrupted
     = Some (Ok (-1), mk_world [answer_ok] {[0; 1; 2; 3]} ∅ [None])
  /\ xaccept_internal true 3 false w_interrupted
     = Some (Die EAGAIN "accept", mk_world [answer_ok] {[0; 1; 2; 3]} ∅ [None])
  /\ xbind 3 w_interrupted
     = Some (Die EINTR "bind",
             with_replies [answer_EINTR; answer_EAGAIN; answer_ok] w_interrupted).
Proof.
  assert (Hpre : Forall interrupted [answer_EINTR; answer_EINTR])
    by (repeat constructor).
  assert (Hr : ~ interrupted answer_EAGAIN) by (intros [_ He]; discriminate He).
  destruct (interruption_handling true true w_interrupted
              [answer_EINTR; answer_EINTR] answer_EAGAIN [answer_ok]
              eq_refl Hpre Hr) as (Hconnect & _ & Haccept & Hsingle).
  split; [apply (Hconnect 3)|].
  split; [apply (Haccept 3 true eq_refl)|].
  split; [apply (Haccept 3 false eq_refl)|].
  destruct (Hsingle 3 0 0 0 0 answer_EINTR eq_refl eq_refl) as (_ & Hbind & _).
  exact Hbind.
Defined.

(** C6 as stated fails for the wrappers without a retry loop: [xbind],
    answered with an interruption, dies with EINTR and leaves the next
    answer of the kernel unasked. *)
Lemma xbind_surfaces_EINTR :
  interrupted answer_EINTR
  /\ xbind 3 (mk_world [answer_EINTR; answer_ok] {[0; 1; 2; 3]} ∅ [])
     = Some (Die EINTR "bind", mk_world [answer_ok] {[0; 1; 2; 3]} ∅ [])
  /\ xconnect 3 (mk_world [answer_EINTR; answer_ok] {[0; 1; 2; 3]} ∅ [])
     = Some (Ok tt, mk_world [] {[0; 1; 2; 3]} ∅ []).
Proof. split; [by split|]. split; vm_compute; reflexivity. Qed.

Lemma xsocketpair_closes_on_failure_witness :
  catch_error (xsocketpair false 1 1 0) w_pair_fails
  = Some (Die 9 "fcntl", mk_world [] {[0; 1; 2]} ∅ [])
  /\ open_fds (mk_world [] {[0; 1; 2]} ∅ []) ⊆ open_fds w_pair_fails
  /\ (3 ∉ open_fds (mk_world [] {[0; 1; 2]} ∅ []))
  /\ (4 ∉ open_fds (mk_world [] {[0; 1; 2]} ∅ [])).
Proof.
  assert (E : catch_error (xsocketpair false 1 1 0) w_pair_fails
              = Some (Die 9 "fcntl", mk_world [] {[0; 1; 2]} ∅ []))
    by (vm_compute; reflexivity).
  split; [exact E|].
  destruct (xsocketpair_closes_on_failure false 1 1 0 _ _ _ _ E) as [Hsub Hpair].
  split; [exact Hsub|].
  apply (Hpair (mk_reply 0 0 (3, 4)) [answer_ok; answer_EBADF] eq_refl).
  vm_compute. discriminate.
Defined.

(** C5 as stated fails for [xsocketpairnc]: in the same scenario it dies
    with both descriptors of the pair still open. *)
Lemma xsocketpairnc_leaves_pair_open :
  catch_error (xsocketpairnc false 1 1 0) w_pair_fails
  = Some (Die 9 "fcntl", mk_world [] {[0; 1; 2; 3; 4]} {[3]} [])
  /\ 3 ∈ open_fds (mk_world [] {[0; 1; 2; 3; 4]} {[3]} [])
  /\ 4 ∈ open_fds (mk_world [] {[0; 1; 2; 3; 4]} {[3]} []).
Proof. split; [vm_compute; reflexivity|]. cbn [open_fds]. set_solver. Qed.

(** ** Further scenarios *)

Lemma xsocket_returns_guarded_witness :
  0 <= 5
  /\ open_fds (mk_world [] {[0; 1; 2; 5]} {[5]} [Some 5]) = {[5]} ∪ open_fds w_socket
  /\ 5 ∈ cloexec_fds (mk_world [] {[0; 1; 2; 5]} {[5]} [Some 5])
  /\ reslist (mk_world [] {[0; 1; 2; 5]} {[5]} [Some 5]) = reslist w_socket ++ [Some 5].
Proof.
  apply (xsocket_returns_guarded true 2 1 0 w_socket).
  vm_compute. reflexivity.
Defined.

Lemma xsocket_no_leak_witness :
  open_fds (mk_world [] {[0; 1; 2]} ∅ []) ⊆ open_fds w_socket_fcntl_fails.
Proof.
  apply (xsocket_no_leak false 2 1 0 w_socket_fcntl_fails
           (mk_world [] {[0; 1; 2]} ∅ []) 9 "fcntl").
  vm_compute. reflexivity.
Defined.

Lemma xaccept_returns_witness :
  ((-1 = -1 /\ true = true
    /\ open_fds (mk_world [answer_ok] {[0; 1; 2; 3]} ∅ [None]) = open_fds w_interrupted
    /\ cloexec_fds (mk_world [answer_ok] {[0; 1; 2; 3]} ∅ [None])
       = cloexec_fds w_interrupted)
   \/ (-1 <> -1
       /\ open_fds (mk_world [answer_ok] {[0; 1; 2; 3]} ∅ [None])
          = {[-1]} ∪ open_fds w_interrupted
       /\ -1 ∈ cloexec_fds (mk_world [answer_ok] {[0; 1; 2; 3]} ∅ [None])
       /\ reslist (mk_world [answer_ok] {[0; 1; 2; 3]} ∅ [None])
          = reslist w_interrupted ++ [Some (-1)]))
  /\ (true = false -> -1 <> -1).
Proof.
  apply (xaccept_returns true 3 true w_interrupted).
  vm_compute. reflexivity.
Defined.

Lemma xaccept_no_leak_witness :
  open_fds (mk_world [] {[0; 1; 2; 3]} ∅ []) ⊆ open_fds w_accept_fcntl_fails.
Proof.
  destruct (xaccept_no_leak true false 3 w_accept_fcntl_fails
              (mk_world [] {[0; 1; 2; 3]} ∅ []) 9 "fcntl") as [_ Hnonblock].
  apply Hnonblock. vm_compute. reflexivity.
Defined.

Lemma xsocketpair_returns_guarded_witness :
  open_fds (mk_world [] {[0; 1; 2; 3; 4]} {[3; 4]} [Some 3; Some 4])
  = {[4]} ∪ ({[3]} ∪ open_fds w_pair)
  /\ 3 ∈ cloexec_fds (mk_world [] {[0; 1; 2; 3; 4]} {[3; 4]} [Some 3; Some 4])
  /\ 4 ∈ cloexec_fds (mk_world [] {[0; 1; 2; 3; 4]} {[3; 4]} [Some 3; Some 4])
  /\ reslist (mk_world [] {[0; 1; 2; 3; 4]} {[3; 4]} [Some 3; Some 4])
     = reslist w_pair ++ [Some 3; Some 4].
Proof.
  apply (xsocketpair_returns_guarded true 1 1 0 w_pair).
  vm_compute. reflexivity.
Defined.

Lemma xsocketpairnc_registers_nothing_witness :
  reslist (mk_world [] {[0; 1; 2; 3; 4]} {[3]} []) = reslist w_pair_fails.
Proof.
  apply (xsocketpairnc_registers_nothing false 1 1 0 w_pair_fails
           (mk_world [] {[0; 1; 2; 3; 4]} {[3]} []) (Die 9 "fcntl")).
  vm_compute. reflexivity.
Defined.

Lemma socket_then_connect_witness :
  open_fds (mk_world [] {[0; 1; 2]} ∅ []) ⊆ open_fds w_socket_refused
  /\ reslist (mk_world [] {[0; 1; 2]} ∅ []) = reslist w_socket_refused.
Proof.
  apply (socket_then_connect true 2 1 0 w_socket_refused
           (mk_world [] {[0; 1; 2]} ∅ []) (Die 111 "connect")).
  vm_compute. reflexivity.
Defined.

Lemma xaccept_nonblock_would_block_witness :
  xaccept_nonblock true false 3 w_interrupted
  = Some (Ok (-1), mk_world [answer_ok] (open_fds w_interrupted)
                            (cloexec_fds w_interrupted)
                            (reslist w_interrupted ++ [None])).
Proof.
  apply (xaccept_nonblock_would_block true false 3 w_interrupted
           [answer_EINTR; answer_EINTR] answer_EAGAIN [answer_ok]).
  - reflexivity.
  - repeat constructor.
  - reflexivity.
  - left. reflexivity.
Defined.

End Sock.

(** * The ring buffer of ringbuf.h *)

Module Ringbuf.

Local Open Scope nat_scope.

(** Modelled from the spec: [struct ringbuf] of ringbuf.c, which is not
    among the sources (ringbuf.h only declares the functions): a fixed
    capacity, the backing array, the read cursor and the number of bytes
    held; the write cursor is the read cursor plus the size, modulo the
    capacity. *)
Record ringbuf : Type := mk_ringbuf {
  capacity : nat;
  storage : list byte;
  head : nat;
  size : nat
}.

(** A span of the backing array ([struct iovec]): offset and length. *)
Record span : Type := mk_span {
  span_off : nat;
  span_len : nat
}.

(** Modelled from the spec: [ringbuf_new], [ringbuf_capacity],
    [ringbuf_size] and [ringbuf_room] of ringbuf.c: a buffer is created
    empty with a fixed capacity, and room = capacity - size. *)
Definition ringbuf_new (cap : nat) : ringbuf :=
  mk_ringbuf cap (replicate cap x00) 0 0.

Definition ringbuf_capacity (rb : ringbuf) : nat := capacity rb.
Definition ringbuf_size (rb : ringbuf) : nat := size rb.
Definition ringbuf_room (rb : ringbuf) : nat := capacity rb - size rb.

(** Modelled from the spec: [ringbuf_readable_iov] and
    [ringbuf_writable_iov] of ringbuf.c: up to two contiguous spans for the
    next [sz] bytes to read (clamped to the size) or to write (clamped to
    the room); the second span starts at the beginning of the array and is
    empty unless the bytes wrap around its end. *)
Definition ringbuf_readable_iov (rb : ringbuf) (sz : nat) : span * span :=
  let n := sz `min` ringbuf_size rb in
  let first := n `min` (capacity rb - head rb) in
  (mk_span (head rb) first, mk_span 0 (n - first)).

Definition ringbuf_writable_iov (rb : ringbuf) (sz : nat) : span * span :=
  let n := sz `min` ringbuf_room rb in
  let tail := (head rb + size rb) `mod` capacity rb in
  let first := n `min` (capacity rb - tail) in
  (mk_span tail first, mk_span 0 (n - first)).

(** Modelled from the spec: [ringbuf_note_added] and [ringbuf_note_removed]
    of ringbuf.c: the bookkeeping after [nr] bytes were deposited or
    consumed through the spans. The spec does not say what they return nor
    what happens when [nr] exceeds the room or the size. *)
Definition ringbuf_note_added (rb : ringbuf) (nr : nat) : ringbuf :=
  mk_ringbuf (capacity rb) (storage rb) (head rb) (size rb + nr).

Definition ringbuf_note_removed (rb : ringbuf) (nr : nat) : ringbuf :=
  mk_ringbuf (capacity rb) (storage rb)
             ((head rb + nr) `mod` capacity rb) (size rb - nr).

(** [memcpy] into and out of a span of the array. *)
Definition write_span (s : span) (data : list byte) (arr : list byte) : list byte :=
  take (span_off s) arr ++ take (span_len s) data
  ++ drop (span_off s + span_len s) arr.

Definition read_span (s : span) (arr : list byte) : list byte :=
  take (span_len s) (drop (span_off s) arr).

(** Modelled from the spec: [ringbuf_copy_in] and [ringbuf_copy_out] of
    ringbuf.c: direct transfer between memory and the buffer, fatal when
    the request exceeds the room or the size. By their declarations
    [ringbuf_copy_in] changes the buffer and [ringbuf_copy_out] does not:
    the bytes copied out stay held until [ringbuf_note_removed]. *)
Definition ringbuf_copy_in (rb : ringbuf) (buf : list byte) : outcome ringbuf :=
  let sz := length buf in
  if ringbuf_room rb <? sz
  then Die EINVAL "ringbuf_copy_in: not enough room"
  else
    let '(iov0, iov1) := ringbuf_writable_iov rb sz in
    let arr := write_span iov0 buf (storage rb) in
    let arr := write_span iov1 (drop (span_len iov0) buf) arr in
    Ok (ringbuf_note_added (mk_ringbuf (capacity rb) arr (head rb) (size rb)) sz).

Definition ringbuf_copy_out (rb : ringbuf) (sz : nat) : outcome (list byte) :=
  if ringbuf_size rb <? sz
  then Die EINVAL "ringbuf_copy_out: not enough data"
  else
    let '(iov0, iov1) := ringbuf_readable_iov rb sz in
    Ok (read_span iov0 (storage rb) ++ read_span iov1 (storage rb)).

(** The operations a caller interleaves: a write ([ringbuf_copy_in]), a read
    ([ringbuf_copy_out], then [ringbuf_note_removed] of what was read), and
    the bookkeeping calls after raw I/O through the spans. *)
Inductive op : Type :=
| Write (buf : list byte)
| Read (sz : nat)
| NoteAdded (nr : nat)
| NoteRemoved (nr : nat).

Definition step (rb : ringbuf) (o : op) : outcome ringbuf :=
  match o with
  | Write buf => ringbuf_copy_in rb buf
  | Read sz => _ ← ringbuf_copy_out rb sz; Ok (ringbuf_note_removed rb sz)
  | NoteAdded nr => Ok (ringbuf_note_added rb nr)
  | NoteRemoved nr => Ok (ringbuf_note_removed rb nr)
  end.

Fixpoint run (rb : ringbuf) (ops : list op) : outcome ringbuf :=
  match ops with
  | [] => Ok rb
  | o :: ops' => rb' ← step rb o; run rb' ops'
  end.

(** The running total of held bytes, as the caller counts it. *)
Definition delta (o : op) : Z :=
  match o with
  | Write buf => Z.of_nat (length buf)
  | Read sz => - Z.of_nat sz
  | NoteAdded nr => Z.of_nat nr
  | NoteRemoved nr => - Z.of_nat nr
  end.

Fixpoint within_capacity (cap : nat) (held : Z) (ops : list op) : Prop :=
  match ops with
  | [] => True
  | o :: ops' =>
      (0 <= held + delta o <= Z.of_nat cap)%Z
      /\ within_capacity cap (held + delta o)%Z ops'
  end.

(** The representation invariant. *)
Definition wf (rb : ringbuf) : Prop :=
  length (storage rb) = capacity rb
  /\ size rb <= capacity rb
  /\ (head rb < capacity rb \/ (capacity rb = 0 /\ head rb = 0)).

(** A buffer of four bytes whose cursor stands on the last one, and a
    payload that wraps around in it. *)
Definition rb_at_end : ringbuf := mk_ringbuf 4 [x00; x00; x00; x00] 3 0.
Definition abc : list byte := [x61; x62; x63].

(** ** Spans *)

Lemma length_write_span (s : span) (data arr : list byte) :
  span_off s + span_len s <= length arr ->
  span_len s <= length data ->
  length (write_span s data arr) = length arr.
Proof.
  intros Harr Hdata. unfold write_span.
  rewrite !length_app, !length_take, length_drop. lia.
Qed.

Lemma read_write_span (s : span) (data arr : list byte) :
  span_off s <= length arr ->
  span_len s <= length data ->
  read_span s (write_span s data arr) = take (span_len s) data.
Proof.
  intros Harr Hdata. unfold read_span, write_span.
  rewrite drop_app_length' by (rewrite length_take; lia).
  rewrite take_app_length' by (rewrite length_take; lia). done.
Qed.

Lemma iov_lengths (rb : ringbuf) (sz : nat) :
  span_len (ringbuf_readable_iov rb sz).1 + span_len (ringbuf_readable_iov rb sz).2
  = sz `min` ringbuf_size rb
  /\ span_len (ringbuf_writable_iov rb sz).1 + span_len (ringbuf_writable_iov rb sz).2
     = sz `min` ringbuf_room rb.
Proof.
  unfold ringbuf_readable_iov, ringbuf_writable_iov. cbn [fst snd span_len]. lia.
Qed.

Lemma wf_new (cap : nat) : wf (ringbuf_new cap).
Proof.
  unfold wf, ringbuf_new. cbn. rewrite length_replicate.
  split; [done|]. split; [lia|]. destruct cap; [right|left]; lia.
Qed.

Lemma tail_in_range (rb : ringbuf) :
  wf rb -> (head rb + size rb) `mod` capacity rb <= capacity rb.
Proof.
  intros (_ & Hsize & [Hhead|[Hcap Hhead]]).
  - pose proof (Nat.mod_upper_bound (head rb + size rb) (capacity rb)). lia.
  - rewrite Hcap, Hhead in *. replace (size rb) with 0 by lia. done.
Qed.

(** ** One operation *)

Lemma copy_in_ok (rb : ringbuf) (buf : list byte) :
  wf rb -> length buf <= ringbuf_room rb ->
  exists rb',
    ringbuf_copy_in rb buf = Ok rb'
    /\ wf rb' /\ capacity rb' = capacity rb
    /\ head rb' = head rb /\ size rb' = size rb + length buf.
Proof.
  intros Hwf Hroom. pose proof (tail_in_range rb Hwf) as Htail.
  destruct Hwf as (Hlen & Hsize & Hhead). unfold ringbuf_copy_in, ringbuf_room in *.
  destruct (Nat.ltb_spec (capacity rb - size rb) (length buf)); [lia|].
  unfold ringbuf_writable_iov, ringbuf_room, ringbuf_note_added.
  cbn [capacity storage head size].
  eexists. split; [reflexivity|]. unfold wf. cbn [capacity storage head size span_len].
  repeat split; try done; try lia.
  rewrite !length_write_span; cbn [span_off span_len];
    rewrite ?length_write_span, ?length_drop; cbn [span_off span_len]; lia.
Qed.

Lemma note_removed_wf (rb : ringbuf) (nr : nat) :
  wf rb -> nr <= size rb -> wf (ringbuf_note_removed rb nr).
Proof.
  intros (Hlen & Hsize & Hhead) Hnr. unfold wf, ringbuf_note_removed.
  cbn [capacity storage head size]. split; [done|]. split; [lia|].
  destruct Hhead as [Hhead|[Hcap Hhead]].
  - left. apply Nat.mod_upper_bound. lia.
  - right. split; [done|]. rewrite Hcap, Hhead. replace nr with 0 by lia. done.
Qed.

Lemma step_ok (rb : ringbuf) (o : op) :
  wf rb ->
  (0 <= Z.of_nat (size rb) + delta o <= Z.of_nat (capacity rb))%Z ->
  exists rb',
    step rb o = Ok rb'
    /\ wf rb' /\ capacity rb' = capacity rb
    /\ Z.of_nat (size rb') = (Z.of_nat (size rb) + delta o)%Z.
Proof.
  intros Hwf Hheld. destruct o as [buf|sz|nr|nr]; cbn [step delta] in *.
  - destruct (copy_in_ok rb buf Hwf) as (rb' & -> & Hwf' & Hcap & _ & Hsz).
    { unfold ringbuf_room. lia. }
    exists rb'. split; [done|]. split; [done|]. split; [done|]. lia.
  - unfold ringbuf_copy_out, ringbuf_size.
    destruct (Nat.ltb_spec (size rb) sz); [lia|].
    destruct (ringbuf_readable_iov rb sz) as [iov0 iov1]. cbn [mbind outcome_bind].
    eexists. split; [reflexivity|].
    split; [apply note_removed_wf; [done|lia]|]. cbn. split; [done|lia].
  - eexists. split; [reflexivity|]. destruct Hwf as (Hlen & Hsize & Hhead).
    unfold wf, ringbuf_note_added. cbn [capacity storage head size].
    repeat split; try done; lia.
  - eexists. split; [reflexivity|].
    split; [apply note_removed_wf; [done|lia]|]. cbn. split; [done|lia].
Qed.

(** C8. From a well-formed buffer, along any sequence of writes, reads and
    bookkeeping calls whose running total of held bytes stays between 0 and
    the capacity, every operation succeeds and after each of them
    size + room = capacity and size <= capacity (0 <= size holds by type);
    the capacity never changes. *)
Theorem size_plus_room_is_capacity (rb : ringbuf) (ops : list op) :
  wf rb ->
  within_capacity (capacity rb) (Z.of_nat (size rb)) ops ->
  forall k : nat,
  exists rb',
    run rb (take k ops) = Ok rb'
    /\ ringbuf_size rb' + ringbuf_room rb' = ringbuf_capacity rb'
    /\ ringbuf_size rb' <= ringbuf_capacity rb'
    /\ ringbuf_capacity rb' = ringbuf_capacity rb.
Proof.
  revert rb. induction ops as [|o ops IH]; intros rb Hwf Hops k.
  - rewrite take_nil. exists rb. destruct Hwf as (_ & Hsize & _).
    unfold ringbuf_size, ringbuf_room, ringbuf_capacity. cbn [run]. repeat split; lia.
  - destruct k as [|k].
    + exists rb. destruct Hwf as (_ & Hsize & _).
      unfold ringbuf_size, ringbuf_room, ringbuf_capacity. cbn [run take].
      repeat split; lia.
    + destruct Hops as [Hheld Hops].
      destruct (step_ok rb o Hwf Hheld) as (rb1 & Hstep & Hwf1 & Hcap1 & Hsize1).
      rewrite <- Hsize1, <- Hcap1 in Hops.
      destruct (IH rb1 Hwf1 Hops k) as (rb' & Hrun & Hsum & Hle & Hcap').
      exists rb'. cbn [take run]. rewrite Hstep. cbn [mbind outcome_bind].
      unfold ringbuf_capacity in *. repeat split; try done. congruence.
Qed.

(** C9. A payload no longer than the capacity, copied into an empty
    well-formed buffer (wherever its cursor stands) and copied out again
    with the same length, comes back byte for byte; once the bytes copied
    out are noted as removed the buffer holds nothing. *)
Theorem copy_in_copy_out_round_trip (rb : ringbuf) (buf : list byte) :
  wf rb -> ringbuf_size rb = 0 -> length buf <= ringbuf_capacity rb ->
  exists rb1,
    ringbuf_copy_in rb buf = Ok rb1
    /\ ringbuf_copy_out rb1 (length buf) = Ok buf
    /\ ringbuf_size (ringbuf_note_removed rb1 (length buf)) = 0.
Proof.
  intros Hwf Hempty Hfit. unfold ringbuf_size, ringbuf_capacity in *.
  destruct rb as [cap arr h sz]. cbn [size capacity] in *. subst sz.
  destruct Hwf as (Hlen & _ & Hhead). cbn [capacity storage head size] in *.
  unfold ringbuf_copy_in, ringbuf_room, ringbuf_writable_iov, ringbuf_room.
  cbn [capacity storage head size].
  destruct (Nat.ltb_spec (cap - 0) (length buf)); [lia|].
  eexists. split; [reflexivity|].
  unfold ringbuf_note_added, ringbuf_copy_out, ringbuf_readable_iov, ringbuf_size.
  cbn [capacity storage head size span_len].
  destruct (Nat.ltb_spec (0 + length buf) (length buf)); [lia|].
  split; [|cbn; lia].
  assert (Htail : (h + 0) `mod` cap = h).
  { destruct Hhead as [Hhead|[-> ->]]; [|done].
    rewrite Nat.add_0_r. by apply Nat.mod_small. }
  rewrite Htail.
  replace (length buf `min` (cap - 0)) with (length buf) by lia.
  replace (length buf `min` (0 + length buf)) with (length buf) by lia.
  set (first := length buf `min` (cap - h)).
  set (arr1 := write_span (mk_span h first) buf arr).
  set (arr2 := write_span (mk_span 0 (length buf - first)) (drop first buf) arr1).
  assert (Hh : h <= cap) by (destruct Hhead as [?|[-> ->]]; lia).
  assert (L1 : length arr1 = cap).
  { unfold arr1. rewrite length_write_span; cbn [span_off span_len]; lia. }
  assert (H2 : read_span (mk_span 0 (length buf - first)) arr2 = drop first buf).
  { unfold arr2. rewrite read_write_span; cbn [span_off span_len].
    - apply take_ge. rewrite length_drop. lia.
    - lia.
    - rewrite length_drop. lia. }
  assert (H1 : read_span (mk_span h first) arr2 = take first buf).
  { unfold arr2, read_span, write_span. cbn [span_off span_len].
    rewrite take_0, Nat.add_0_l. cbn [app].
    rewrite (take_ge (drop first buf)) by (rewrite length_drop; lia).
    rewrite drop_app_ge by (rewrite length_drop; lia).
    rewrite length_drop, drop_drop.
    replace (length buf - first + (h - (length buf - first))) with h by lia.
    unfold arr1, write_span. cbn [span_off span_len].
    rewrite drop_app_length' by (rewrite length_take; lia).
    rewrite take_app_length' by (rewrite !length_take; lia). done. }
  f_equal. rewrite H1, H2. apply take_drop.
Qed.

(** ** The wrap-around case *)

Example copy_in_wraps :
  ringbuf_copy_in rb_at_end abc = Ok (mk_ringbuf 4 [x62; x63; x00; x61] 3 3).
Proof. reflexivity. Qed.

Lemma copy_in_copy_out_round_trip_witness :
  exists rb1,
    ringbuf_copy_in rb_at_end abc = Ok rb1
    /\ ringbuf_copy_out rb1 (length abc) = Ok abc
    /\ ringbuf_size (ringbuf_note_removed rb1 (length abc)) = 0.
Proof.
  apply (copy_in_copy_out_round_trip rb_at_end abc).
  - unfold wf. cbn. repeat split; [lia | left; lia].
  - reflexivity.
  - cbn. lia.
Defined.

Lemma size_plus_room_is_capacity_witness :
  exists rb',
    run (ringbuf_new 4)
        (take 5 [Write abc; Read 2; Write abc; NoteRemoved 4; NoteAdded 1])
    = Ok rb'
    /\ ringbuf_size rb' + ringbuf_room rb' = ringbuf_capacity rb'
    /\ ringbuf_size rb' <= ringbuf_capacity rb'
    /\ ringbuf_capacity rb' = ringbuf_capacity (ringbuf_new 4).
Proof.
  apply (size_plus_room_is_capacity (ringbuf_new 4)
           [Write abc; Read 2; Write abc; NoteRemoved 4; NoteAdded 1]).
  - apply wf_new.
  - cbn. repeat split; lia.
Defined.

End Ringbuf.
